(** * Trigger resolution, dispatch and archive/restore of temba/triggers/models.py

    A shallow embedding of [Trigger] and of its class methods.  The Django
    tables the methods read and write are lists of rows; a [QuerySet] is a
    row predicate that is run against the table each time the source
    evaluates it, and a model instance is the row as it was when fetched, so
    [save] writes that snapshot back. *)

From Stdlib Require Import ZArith List String Ascii Bool Lia.
Import ListNotations.
Open Scope Z_scope.

(** ** Data model *)

(** [TRIGGER_TYPES]: the one-letter codes 'K', 'S', 'V', 'M', 'C', 'F'. *)
Inductive TriggerType : Type :=
| KEYWORD_TRIGGER
| SCHEDULE_TRIGGER
| INBOUND_CALL_TRIGGER
| MISSED_CALL_TRIGGER
| CATCH_ALL_TRIGGER
| FOLLOW_TRIGGER.

Definition trigger_type_eqb (a b : TriggerType) : bool :=
  match a, b with
  | KEYWORD_TRIGGER, KEYWORD_TRIGGER
  | SCHEDULE_TRIGGER, SCHEDULE_TRIGGER
  | INBOUND_CALL_TRIGGER, INBOUND_CALL_TRIGGER
  | MISSED_CALL_TRIGGER, MISSED_CALL_TRIGGER
  | CATCH_ALL_TRIGGER, CATCH_ALL_TRIGGER
  | FOLLOW_TRIGGER, FOLLOW_TRIGGER => true
  | _, _ => false
  end.

(** A row of the trigger table.  Foreign keys are primary keys of the other
    tables, nullable columns are options, timestamps are integers.  The
    many-to-many fields [groups] and [contacts] live in their own tables
    (see [World]).  [is_active] and [modified_on] come from SmartModel. *)
Record Trigger : Type := mkTrigger {
  pk : Z;
  org : Z;
  keyword : option string;
  flow : option Z;
  last_triggered : option Z;
  trigger_count : Z;
  is_archived : bool;
  schedule : option Z;
  trigger_type : TriggerType;
  channel : option Z;
  is_active : bool;
  modified_on : Z
}.

Definition set_is_archived (b : bool) (t : Trigger) : Trigger :=
  mkTrigger (pk t) (org t) (keyword t) (flow t) (last_triggered t)
            (trigger_count t) b (schedule t) (trigger_type t) (channel t)
            (is_active t) (modified_on t).

Definition set_flow (f : option Z) (t : Trigger) : Trigger :=
  mkTrigger (pk t) (org t) (keyword t) f (last_triggered t)
            (trigger_count t) (is_archived t) (schedule t) (trigger_type t)
            (channel t) (is_active t) (modified_on t).

(** [trigger.last_triggered = when; trigger.trigger_count += 1] *)
Definition stamp (when : Z) (t : Trigger) : Trigger :=
  mkTrigger (pk t) (org t) (keyword t) (flow t) (Some when)
            (trigger_count t + 1) (is_archived t) (schedule t)
            (trigger_type t) (channel t) (is_active t) (modified_on t).

Record Flow : Type := mkFlow {
  flow_pk : Z;
  flow_org : Z;
  flow_is_active : bool;
  flow_is_archived : bool;
  ignore_triggers : bool
}.

(** [run_completed] is what [FlowRun.is_completed()] answers. *)
Record FlowRun : Type := mkFlowRun {
  run_pk : Z;
  run_is_active : bool;
  run_contact : Z;
  run_flow : Z;
  run_created_on : Z;
  run_completed : bool
}.

Record ContactGroup : Type := mkContactGroup {
  group_pk : Z;
  group_org : Z;
  group_name : string;
  group_is_active : bool
}.

Record ChannelRow : Type := mkChannel {
  channel_pk : Z;
  channel_org : Z
}.

(** A contact with the keys of the groups it belongs to. *)
Record Contact : Type := mkContact {
  contact_pk : Z;
  contact_org : Z;
  contact_groups : list Z
}.

Record Msg : Type := mkMsg {
  msg_pk : Z;
  msg_org : Z;
  msg_contact : Contact;
  msg_text : string;
  msg_created_on : Z
}.

(** One call [flow.start(groups, contacts, start_msg=..., restart_participants=...)]
    of the flow engine, which is outside this module: calls are logged. *)
Record FlowStart : Type := mkFlowStart {
  fs_flow : Z;
  fs_groups : list Z;
  fs_contacts : list Z;
  fs_start_msg : option Z;
  fs_restart_participants : bool
}.

(** The database and the environment the methods run in.  [trigger_groups]
    and [trigger_contacts] are the join tables (trigger key, group or contact
    key); [clock] is what [timezone.now()] reads. *)
Record World : Type := mkWorld {
  triggers : list Trigger;
  trigger_groups : list (Z * Z);
  trigger_contacts : list (Z * Z);
  flows : list Flow;
  runs : list FlowRun;
  contactgroups : list ContactGroup;
  channels : list ChannelRow;
  clock : Z;
  started : list FlowStart
}.

Definition set_triggers (tbl : list Trigger) (w : World) : World :=
  mkWorld tbl (trigger_groups w) (trigger_contacts w) (flows w) (runs w)
          (contactgroups w) (channels w) (clock w) (started w).

Definition log_start (s : FlowStart) (w : World) : World :=
  mkWorld (triggers w) (trigger_groups w) (trigger_contacts w) (flows w)
          (runs w) (contactgroups w) (channels w) (clock w) (started w ++ [s]).

(** ** Query primitives *)

Definition mem (k : Z) (ks : list Z) : bool := existsb (Z.eqb k) ks.

Definition opt_Z_eqb (a b : option Z) : bool :=
  match a, b with
  | Some x, Some y => x =? y
  | None, None => true
  | _, _ => false
  end.

(** Truth value of a Python string: the empty string is false. *)
Definition nonempty (s : string) : bool :=
  match s with EmptyString => false | _ => true end.

(** SQL [keyword = k]: a NULL column equals nothing. *)
Definition keyword_is (k : string) (t : Trigger) : bool :=
  match keyword t with
  | Some k' => String.eqb k' k
  | None => false
  end.

(** [Model.objects.filter(pk=k).first()] *)
Definition get_trigger (k : Z) (tbl : list Trigger) : option Trigger :=
  find (fun r => pk r =? k) tbl.

Definition get_flow (k : Z) (tbl : list Flow) : option Flow :=
  find (fun f => flow_pk f =? k) tbl.

(** [queryset.update(is_archived=True)] on the rows the query selects. *)
Definition update_is_archived (q : Trigger -> bool) (b : bool)
    (tbl : list Trigger) : list Trigger :=
  map (fun r => if q r then set_is_archived b r else r) tbl.

(** [instance.save()]: UPDATE the row with the instance's key to the
    instance's fields, INSERT when no row has that key.  SmartModel's [save]
    also sets [modified_on] to the time of the save; that column is left as
    the instance has it, so what is stated of a saved row is stated up to
    [modified_on] (see [same_but_modified_on]).  The methods below read
    [modified_on] only from rows they have not saved before. *)
Definition save (t : Trigger) (tbl : list Trigger) : list Trigger :=
  if existsb (fun r => pk r =? pk t) tbl
  then map (fun r => if pk r =? pk t then t else r) tbl
  else tbl ++ [t].

(** ** Ordering of [order_by('-last_triggered', '-modified_on')]

    Descending on both columns; under DESC PostgreSQL puts NULL first, so a
    trigger that never fired sorts before every trigger that did. *)
Definition restore_before (a b : Trigger) : bool :=
  match last_triggered a, last_triggered b with
  | None, None => modified_on b <=? modified_on a
  | None, Some _ => true
  | Some _, None => false
  | Some x, Some y =>
      (y <? x) || ((x =? y) && (modified_on b <=? modified_on a))
  end.

Section Sorting.
Context {A : Type} (before : A -> A -> bool).

Fixpoint insert_by (x : A) (l : list A) : list A :=
  match l with
  | [] => [x]
  | y :: l' => if before x y then x :: l else y :: insert_by x l'
  end.

(** Stable: among equal keys the table order is kept. *)
Definition order_by (l : list A) : list A :=
  fold_right insert_by [] l.

End Sorting.

(** ** Archive and restore *)

(** [apply_action_archive]; [triggers] is [Trigger.objects.filter(pk__in=ids)]. *)
Definition apply_action_archive (ids : list Z) (db : list Trigger)
    : list Z * list Trigger :=
  let triggers := fun r => mem (pk r) ids in
  let db' := update_is_archived triggers true db in
  (map pk (filter triggers db'), db').

(** The query [same_keyword_triggers] of the restore loop. *)
Definition same_keyword_triggers (trigger : Trigger) (k : string)
    (r : Trigger) : bool :=
  (org r =? org trigger) && keyword_is k r && negb (is_archived r)
  && is_active r && trigger_type_eqb (trigger_type r) KEYWORD_TRIGGER.

(** [if same_keyword_triggers: same_keyword_triggers.update(is_archived=True)] *)
Definition displaced (trigger : Trigger) (k : string) (db : list Trigger)
    : list Trigger :=
  if existsb (same_keyword_triggers trigger k) db
  then update_is_archived (same_keyword_triggers trigger k) true db
  else db.

(** Body of [for trigger in remaining_triggers]. *)
Definition restore_one (db : list Trigger) (trigger : Trigger)
    : list Trigger :=
  let db1 :=
    match keyword trigger with
    | Some k => if nonempty k then displaced trigger k db else db
    | None => db
    end in
  save (set_is_archived false trigger) db1.

(** [triggers.filter(trigger_type=ty)] *)
Definition selected_of_type (ty : TriggerType) (ids : list Z)
    (db : list Trigger) : list Trigger :=
  filter (fun r => mem (pk r) ids && trigger_type_eqb (trigger_type r) ty) db.

(** The two blocks [if m_last_triggered:] and [if c_last_triggered:]: the
    query is evaluated once by the test and [qs[0]] is that cached instance. *)
Definition restore_exclusive (ty : TriggerType) (ids : list Z)
    (db : list Trigger) : list Trigger :=
  match order_by restore_before (selected_of_type ty ids db) with
  | [] => db
  | first :: _ =>
      save (set_is_archived false first)
        (update_is_archived
           (fun r => (org r =? org first)
                     && trigger_type_eqb (trigger_type r) ty
                     && is_active r)
           true db)
  end.

Definition remaining_triggers (ids : list Z) (db : list Trigger)
    : list Trigger :=
  filter (fun r =>
            mem (pk r) ids
            && negb (mem (pk r)
                       (map pk (selected_of_type MISSED_CALL_TRIGGER ids db)))
            && negb (mem (pk r)
                       (map pk (selected_of_type CATCH_ALL_TRIGGER ids db))))
         db.

(** [apply_action_restore]; [triggers] is [Trigger.objects.filter(pk__in=ids)].
    The loop's query runs when the loop starts, the missed-call query after
    the loop, the catch-all query after the missed-call block, and the
    returned keys are read last. *)
Definition apply_action_restore (ids : list Z) (db : list Trigger)
    : list Z * list Trigger :=
  let db1 := fold_left restore_one (remaining_triggers ids db) db in
  let db2 := restore_exclusive MISSED_CALL_TRIGGER ids db1 in
  let db3 := restore_exclusive CATCH_ALL_TRIGGER ids db2 in
  (map pk (filter (fun r => mem (pk r) ids) db3), db3).

(** ** Keyword extraction

    Message texts are strings over ASCII: [\W], [strip] and [lower] are the
    ASCII ones. *)

Definition between (lo hi : nat) (c : ascii) : bool :=
  (Nat.leb lo (nat_of_ascii c) && Nat.leb (nat_of_ascii c) hi)%bool.

(** [\w]: letters, digits and the underscore. *)
Definition is_word (c : ascii) : bool :=
  between 48 57 c || between 65 90 c || between 97 122 c || between 95 95 c.

Definition is_space (c : ascii) : bool :=
  between 9 13 c || between 28 32 c.

Definition lower_char (c : ascii) : ascii :=
  if between 65 90 c then ascii_of_nat (nat_of_ascii c + 32) else c.

Definition upper_char (c : ascii) : ascii :=
  if between 97 122 c then ascii_of_nat (nat_of_ascii c - 32) else c.

Fixpoint lower (s : string) : string :=
  match s with
  | EmptyString => EmptyString
  | String c s' => String (lower_char c) (lower s')
  end.

Fixpoint upper (s : string) : string :=
  match s with
  | EmptyString => EmptyString
  | String c s' => String (upper_char c) (upper s')
  end.

Fixpoint lstrip (s : string) : string :=
  match s with
  | EmptyString => EmptyString
  | String c s' => if is_space c then lstrip s' else s
  end.

Fixpoint rev_string (s acc : string) : string :=
  match s with
  | EmptyString => acc
  | String c s' => rev_string s' (String c acc)
  end.

Definition strip (s : string) : string :=
  rev_string (lstrip (rev_string (lstrip s) EmptyString)) EmptyString.

(** [re.split(r"[\W]+", s)]: the pieces between maximal runs of non-word
    characters, an empty piece included when [s] starts or ends with a run.
    [cur] is the piece being read, [in_sep] says a run is being skipped. *)
Fixpoint re_split_from (s cur : string) (in_sep : bool) : list string :=
  match s with
  | EmptyString => [cur]
  | String c s' =>
      if is_word c then re_split_from s' (cur ++ String c EmptyString) false
      else if in_sep then re_split_from s' cur true
      else cur :: re_split_from s' EmptyString true
  end.

Definition re_split (s : string) : list string :=
  re_split_from s EmptyString false.

(** [while words and not words[0]: words = words[1:]] *)
Fixpoint drop_empty (words : list string) : list string :=
  match words with
  | [] => []
  | w :: rest => if nonempty w then words else drop_empty rest
  end.

(** SQL [keyword__iexact]: [UPPER(keyword) = UPPER(k)], never true of NULL. *)
Definition keyword_iexact (k : string) (t : Trigger) : bool :=
  match keyword t with
  | Some k' => String.eqb (upper k') (upper k)
  | None => false
  end.

(** ** Matching *)

(** The join conditions [flow__is_archived=False, flow__is_active=True]. *)
Definition flow_usable (w : World) (f : option Z) : bool :=
  match f with
  | Some k =>
      match get_flow k (flows w) with
      | Some fl => negb (flow_is_archived fl) && flow_is_active fl
      | None => false
      end
  | None => false
  end.

(** [trigger.groups.all()] as keys. *)
Definition groups_of (w : World) (t : Z) : list Z :=
  map snd (filter (fun row => fst row =? t) (trigger_groups w)).

Definition contacts_of (w : World) (t : Z) : list Z :=
  map snd (filter (fun row => fst row =? t) (trigger_contacts w)).

Definition get_group (k : Z) (tbl : list ContactGroup) : option ContactGroup :=
  find (fun g => group_pk g =? k) tbl.

(** Rows of [filter(..., groups__in=groups_ids).order_by('groups__name')]
    before sorting: one row per trigger and per group of the trigger that is
    among [groups_ids], with the group's name. *)
Definition group_rows (base : Trigger -> bool) (groups_ids : list Z)
    (w : World) : list (string * Trigger) :=
  flat_map
    (fun t =>
       flat_map
         (fun g =>
            if mem g groups_ids then
              match get_group g (contactgroups w) with
              | Some gr => [(group_name gr, t)]
              | None => []
              end
            else [])
         (groups_of w (pk t)))
    (filter base (triggers w)).

Definition name_before (a b : string * Trigger) : bool :=
  String.leb (fst a) (fst b).

(** First query of both matchers: triggers for the contact's groups. *)
Definition matching_groups (base : Trigger -> bool) (groups_ids : list Z)
    (w : World) : list Trigger :=
  map snd (order_by name_before (group_rows base groups_ids w)).

(** Second query, [groups=None]: triggers without any group. *)
Definition matching_no_group (base : Trigger -> bool) (w : World)
    : list Trigger :=
  filter (fun t => base t
                   && match groups_of w (pk t) with [] => true | _ => false end)
         (triggers w).

(** [matching], after the test [if not matching] has chosen the query. *)
Definition matching (base : Trigger -> bool) (groups_ids : list Z)
    (w : World) : list Trigger :=
  match matching_groups base groups_ids w with
  | [] => matching_no_group base w
  | m => m
  end.

(** The filter shared by the two queries of [find_and_handle]. *)
Definition keyword_filter (w : World) (o : Z) (k : string) (t : Trigger)
    : bool :=
  negb (is_archived t) && is_active t && (org t =? o) && keyword_iexact k t
  && flow_usable w (flow t).

(** The filter shared by the two queries of [find_flow_for_inbound_call]. *)
Definition inbound_call_filter (w : World) (o : Z) (t : Trigger) : bool :=
  negb (is_archived t) && is_active t && (org t =? o)
  && trigger_type_eqb (trigger_type t) INBOUND_CALL_TRIGGER
  && flow_usable w (flow t).

(** ** Keyword dispatch *)

Definition run_before (a b : FlowRun) : bool :=
  (run_created_on b <? run_created_on a)
  || ((run_created_on a =? run_created_on b) && (run_pk b <=? run_pk a)).

(** [FlowRun.objects.filter(is_active=True, contact=..., flow__is_active=True,
    flow__is_archived=False).order_by("-created_on", "-pk").first()] *)
Definition active_run (w : World) (contact : Z) : option FlowRun :=
  hd_error
    (order_by run_before
       (filter (fun r => run_is_active r && (run_contact r =? contact)
                         && flow_usable w (Some (run_flow r)))
               (runs w))).

(** [active_run and active_run.flow.ignore_triggers and not active_run.is_completed()] *)
Definition ignoring_triggers (w : World) (contact : Z) : bool :=
  match active_run w contact with
  | Some r =>
      match get_flow (run_flow r) (flows w) with
      | Some fl => ignore_triggers fl && negb (run_completed r)
      | None => false
      end
  | None => false
  end.

(** The first word of the message, lower-cased: [None] where the source
    returns [False] before looking at runs or triggers. *)
Definition first_keyword (text : string) : option string :=
  match drop_empty (re_split (strip text)) with
  | [] => None
  | word :: _ =>
      let keyword := lower word in
      if nonempty keyword then Some keyword else None
  end.

(** [find_and_handle]: the answer and the world it leaves. *)
Definition find_and_handle (msg : Msg) (w : World) : bool * World :=
  match first_keyword (msg_text msg) with
  | None => (false, w)
  | Some keyword =>
      if ignoring_triggers w (contact_pk (msg_contact msg)) then (false, w)
      else
        match matching (keyword_filter w (msg_org msg) keyword)
                       (contact_groups (msg_contact msg)) w with
        | [] => (false, w)
        | trigger :: _ =>
            let trigger' := stamp (msg_created_on msg) trigger in
            let w1 := set_triggers (save trigger' (triggers w)) w in
            match flow trigger' with   (* never [None]: the filter joins the flow *)
            | Some f =>
                (true,
                 log_start (mkFlowStart f [] [contact_pk (msg_contact msg)]
                                        (Some (msg_pk msg)) true) w1)
            | None => (true, w1)
            end
        end
  end.

(** ** Exceptions and results *)

Inductive Exception : Type :=
| ValueError_unknown_version (version : Z)
| ValueError_entity
| ValueError_assign
| AttributeError
| DoesNotExist.

Inductive Result (A : Type) : Type :=
| Return (a : A)
| Raise (e : Exception).
Arguments Return {A} a.
Arguments Raise {A} e.

(** ** Inbound calls *)

(** [find_flow_for_inbound_call]: the flow of the first match, stamped with
    [timezone.now()]; [None] when nothing matches. *)
Definition find_flow_for_inbound_call (contact : Contact) (w : World)
    : option Z * World :=
  match matching (inbound_call_filter w (contact_org contact))
                 (contact_groups contact) w with
  | [] => (None, w)
  | trigger :: _ =>
      let trigger' := stamp (clock w) trigger in
      (flow trigger', set_triggers (save trigger' (triggers w)) w)
  end.

(** ** Catching triggers of a type *)

Record Call : Type := mkCall {
  call_pk : Z;
  call_org : Z;
  call_contact : Contact
}.

(** What [catch_triggers] is given: [isinstance] picks the branch. *)
Inductive Entity : Type :=
| MsgEntity (m : Msg)
| CallEntity (c : Call)
| IVRCallEntity (c : Call)
| ContactEntity (c : Contact)
| OtherEntity (o : Z).

Definition entity_org (e : Entity) : Z :=
  match e with
  | MsgEntity m => msg_org m
  | CallEntity c | IVRCallEntity c => call_org c
  | ContactEntity c => contact_org c
  | OtherEntity o => o
  end.

(** [get_triggers_of_type] *)
Definition get_triggers_of_type (o : Z) (ty : TriggerType)
    (tbl : list Trigger) : list Trigger :=
  filter (fun r => (org r =? o) && trigger_type_eqb (trigger_type r) ty
                   && is_active r && negb (is_archived r))
         tbl.

(** Truth value of [channel_id]: [None] and [0] are false. *)
Definition truthy_id (k : option Z) : bool :=
  match k with
  | Some n => negb (n =? 0)
  | None => false
  end.

(** [trigger.flow.start(...)]: a trigger without flow has no [start]. *)
Definition start_flow_of (t : Trigger) (groups contacts : list Z)
    (start_msg : option Z) (w : World) : Result FlowStart * World :=
  match flow t with
  | None => (Raise AttributeError, w)
  | Some f =>
      match get_flow f (flows w) with
      | None => (Raise DoesNotExist, w)
      | Some _ =>
          let s := mkFlowStart f groups contacts start_msg true in
          (Return s, log_start s w)
      end
  end.

(** [for trigger in triggers: trigger.flow.start([], [contact], ...)] *)
Fixpoint start_each (ts : list Trigger) (contact : Z) (start_msg : option Z)
    (w : World) : Result unit * World :=
  match ts with
  | [] => (Return tt, w)
  | t :: rest =>
      match start_flow_of t [] [contact] start_msg w with
      | (Return _, w') => start_each rest contact start_msg w'
      | (Raise e, w') => (Raise e, w')
      end
  end.

(** The contact and the [start_msg] the [isinstance] branches pick; [None]
    where the source raises. *)
Definition entity_target (entity : Entity) : option (Z * option Z) :=
  match entity with
  | MsgEntity m => Some (contact_pk (msg_contact m), Some (msg_pk m))
  | CallEntity c | IVRCallEntity c => Some (contact_pk (call_contact c), None)
  | ContactEntity c => Some (contact_pk c, None)
  | OtherEntity _ => None
  end.

(** [triggers], after [if channel_id: triggers = triggers.filter(channel_id=channel_id)]. *)
Definition caught_triggers (o : Z) (ty : TriggerType) (channel_id : option Z)
    (tbl : list Trigger) : list Trigger :=
  let of_type := get_triggers_of_type o ty tbl in
  if truthy_id channel_id
  then filter (fun r => opt_Z_eqb (channel r) channel_id) of_type
  else of_type.

(** [catch_triggers] *)
Definition catch_triggers (entity : Entity) (ty : TriggerType)
    (channel_id : option Z) (w : World) : Result bool * World :=
  match entity_target entity with
  | None => (Raise ValueError_entity, w)
  | Some (contact, start_msg) =>
      let found :=
        caught_triggers (entity_org entity) ty channel_id (triggers w) in
      match start_each found contact start_msg w with
      | (Return _, w') =>
          (Return (match found with [] => false | _ => true end), w')
      | (Raise e, w') => (Raise e, w')
      end
  end.

(** ** Firing one trigger by hand *)

(** What [fire] returns: [None], [False], or what [flow.start] returned. *)
Inductive FireResult : Type :=
| PyNone
| PyFalse
| Started (s : FlowStart).

(** [fire]; [self] is the instance the caller holds. *)
Definition fire (self : Trigger) (w : World) : Result FireResult * World :=
  if is_archived self || negb (is_active self) then (Return PyNone, w)
  else
    match flow self with
    | None => (Raise AttributeError, w)
    | Some f =>
        match get_flow f (flows w) with
        | None => (Raise DoesNotExist, w)
        | Some fl =>
            let channels_of_org :=
              filter (fun c => channel_org c =? flow_org fl) (channels w) in
            match channels_of_org with
            | [] => (Return PyNone, w)
            | _ =>
                let groups := groups_of w (pk self) in
                let contacts := contacts_of w (pk self) in
                match groups, contacts with
                | [], [] => (Return PyFalse, w)
                | _, _ =>
                    let self' := stamp (clock w) self in
                    let w1 := set_triggers (save self' (triggers w)) w in
                    let s := mkFlowStart f groups contacts None true in
                    (Return (Started s), log_start s w1)
                end
            end
        end
    end.

(** ** Import *)

Record GroupSpec : Type := mkGroupSpec {
  gs_id : Z;
  gs_name : string
}.

Record TriggerSpec : Type := mkTriggerSpec {
  ts_trigger_type : TriggerType;
  ts_keyword : option string;
  ts_flow_id : Z;
  ts_groups : list GroupSpec;
  ts_channel : option Z
}.

(** The export file: ['version'], ['site'] and ['triggers'] may be missing. *)
Record ExportedJson : Type := mkExportedJson {
  ex_version : option Z;
  ex_site : option string;
  ex_triggers : option (list TriggerSpec)
}.

Definition set_contactgroups (tbl : list ContactGroup) (w : World) : World :=
  mkWorld (triggers w) (trigger_groups w) (trigger_contacts w) (flows w)
          (runs w) tbl (channels w) (clock w) (started w).

Definition set_trigger_groups (tbl : list (Z * Z)) (w : World) : World :=
  mkWorld (triggers w) tbl (trigger_contacts w) (flows w) (runs w)
          (contactgroups w) (channels w) (clock w) (started w).

(** The key the database gives a new row. *)
Definition next_pk (ks : list Z) : Z := 1 + fold_right Z.max 0 ks.

(** [.first()] of an unordered query: the row with the least key. *)
Definition first_by {A : Type} (key : A -> Z) (l : list A) : option A :=
  hd_error (order_by (fun a b => key a <=? key b) l).

(** Modelled from the spec: [ContactGroup.create(org, user, name)] of
    temba/contacts/models.py, "create new active group". *)
Definition ContactGroup_create (o : Z) (name : string) (w : World)
    : ContactGroup * World :=
  let g := mkContactGroup (next_pk (map group_pk (contactgroups w))) o name
                          true in
  (g, set_contactgroups (contactgroups w ++ [g]) w).

Definition site_matches (site doc_site : option string) : bool :=
  match site, doc_site with
  | Some s, Some d => nonempty s && String.eqb s d
  | _, _ => false
  end.

(** Body of [for group_spec in trigger_spec['groups']]: the group's key. *)
Definition resolve_group (same_site : bool) (o : Z) (spec : GroupSpec)
    (w : World) : Z * World :=
  let by_id :=
    if same_site
    then first_by group_pk
           (filter (fun g => (group_org g =? o) && (group_pk g =? gs_id spec))
                   (contactgroups w))
    else None in
  let by_name :=
    match by_id with
    | Some g => Some g
    | None =>
        first_by group_pk
          (filter (fun g => (group_org g =? o)
                            && String.eqb (group_name g) (gs_name spec))
                  (contactgroups w))
    end in
  let '(group, w1) :=
    match by_name with
    | Some g => (g, w)
    | None => ContactGroup_create o (gs_name spec) w
    end in
  if group_is_active group then (group_pk group, w1)
  else
    (group_pk group,
     set_contactgroups
       (map (fun g => if group_pk g =? group_pk group
                      then mkContactGroup (group_pk g) (group_org g)
                                          (group_name g) true
                      else g)
            (contactgroups w1))
       w1).

Fixpoint resolve_groups (same_site : bool) (o : Z) (specs : list GroupSpec)
    (w : World) : list Z * World :=
  match specs with
  | [] => ([], w)
  | spec :: rest =>
      let '(g, w1) := resolve_group same_site o spec w in
      let '(gs, w2) := resolve_groups same_site o rest w1 in
      (g :: gs, w2)
  end.

(** [trigger.groups.add(group)] *)
Definition add_group (t g : Z) (w : World) : World :=
  if existsb (fun row => (fst row =? t) && (snd row =? g)) (trigger_groups w)
  then w
  else set_trigger_groups (trigger_groups w ++ [(t, g)]) w.

(** The query for an existing trigger and its [.first()]: same organization
    and type, the keyword when the entry has one, one of the groups when the
    entry has groups. *)
Definition find_existing (groups : list Z) (o : Z) (spec : TriggerSpec)
    (w1 : World) : option Trigger :=
  let by_type := fun r =>
    (org r =? o) && trigger_type_eqb (trigger_type r) (ts_trigger_type spec) in
  let by_keyword := fun r =>
    match ts_keyword spec with
    | Some k => if nonempty k then keyword_iexact k r else true
    | None => true
    end in
  let by_groups := fun r =>
    match groups with
    | [] => true
    | _ => existsb (fun g => mem g groups) (groups_of w1 (pk r))
    end in
  first_by pk
    (filter (fun r => by_type r && by_keyword r && by_groups r) (triggers w1)).

(** Body of [for trigger_spec in exported_json['triggers']].  The entry's
    channel is the integer of the export: [Trigger.objects.create(channel=...)]
    takes a Channel or None and refuses an integer with a ValueError, before
    any row is written. *)
Definition import_trigger (same_site : bool) (o : Z) (spec : TriggerSpec)
    (w : World) : Result unit * World :=
  let '(groups, w1) := resolve_groups same_site o (ts_groups spec) w in
  match find (fun f => (flow_org f =? o) && (flow_pk f =? ts_flow_id spec))
             (flows w1) with
  | None => (Raise DoesNotExist, w1)
  | Some fl =>
      match find_existing groups o spec w1 with
      | Some trigger =>
          let trigger' :=
            set_flow (Some (flow_pk fl)) (set_is_archived false trigger) in
          (Return tt, set_triggers (save trigger' (triggers w1)) w1)
      | None =>
          match ts_channel spec with
          | Some _ => (Raise ValueError_assign, w1)
          | None =>
              let trigger :=
                mkTrigger (next_pk (map pk (triggers w1))) o (ts_keyword spec)
                          (Some (flow_pk fl)) None 0 false None
                          (ts_trigger_type spec) None true (clock w1) in
              let w2 := set_triggers (triggers w1 ++ [trigger]) w1 in
              (Return tt, fold_left (fun w' g => add_group (pk trigger) g w')
                                    groups w2)
          end
      end
  end.

Fixpoint import_each (same_site : bool) (o : Z) (specs : list TriggerSpec)
    (w : World) : Result unit * World :=
  match specs with
  | [] => (Return tt, w)
  | spec :: rest =>
      match import_trigger same_site o spec w with
      | (Return _, w') => import_each same_site o rest w'
      | (Raise e, w') => (Raise e, w')
      end
  end.

Section ImportTriggers.
(** [EARLIEST_IMPORT_VERSION] of temba/orgs/models.py. *)
Variable EARLIEST_IMPORT_VERSION : Z.

(** [import_triggers]; a missing ['version'] reads as 0. *)
Definition import_triggers (exported_json : ExportedJson) (o : Z)
    (site : option string) (w : World) : Result unit * World :=
  let version :=
    match ex_version exported_json with Some v => v | None => 0 end in
  if version <? EARLIEST_IMPORT_VERSION
  then (Raise (ValueError_unknown_version version), w)
  else
    match ex_triggers exported_json with
    | None => (Return tt, w)
    | Some specs =>
        import_each (site_matches site (ex_site exported_json)) o specs w
    end.
End ImportTriggers.

(** ** Predicates of the specification *)

(** How many rows satisfy a condition. *)
Definition count (p : Trigger -> bool) (tbl : list Trigger) : nat :=
  List.length (filter p tbl).

(** At most one row satisfies the condition. *)
Definition at_most_one (p : Trigger -> bool) (tbl : list Trigger) : Prop :=
  (count p tbl <= 1)%nat.

(** Active and not archived. *)
Definition live (t : Trigger) : bool := is_active t && negb (is_archived t).

(** An active, non-archived Keyword trigger of organization [o] whose keyword
    is exactly [k]. *)
Definition live_keyword (o : Z) (k : string) (t : Trigger) : bool :=
  live t && trigger_type_eqb (trigger_type t) KEYWORD_TRIGGER
  && (org t =? o) && keyword_is k t.

(** An active, non-archived trigger of type [ty] of organization [o]. *)
Definition live_of_type (ty : TriggerType) (o : Z) (t : Trigger) : bool :=
  live t && trigger_type_eqb (trigger_type t) ty && (org t =? o).

(** Primary keys are unique in the trigger table. *)
Definition unique_pks (tbl : list Trigger) : Prop := NoDup (map pk tbl).

(** The trigger [find_and_handle] fires: [matching[0]], when the message has
    a keyword and the contact's run does not ignore triggers. *)
Definition keyword_match (msg : Msg) (w : World) : option Trigger :=
  match first_keyword (msg_text msg) with
  | None => None
  | Some keyword =>
      if ignoring_triggers w (contact_pk (msg_contact msg)) then None
      else hd_error (matching (keyword_filter w (msg_org msg) keyword)
                              (contact_groups (msg_contact msg)) w)
  end.

(** A trigger targets one of the groups [groups_ids]. *)
Definition targets_group (w : World) (groups_ids : list Z) (t : Trigger)
    : Prop :=
  exists g, In g (groups_of w (pk t)) /\ In g groups_ids.

(** Between two states of the trigger table the row of [t] was stamped
    once -- its count went up by one and its [last_triggered] became
    [when] -- and no other row changed. *)
Definition fired_once (when : Z) (t : Trigger) (before after : list Trigger)
    : Prop :=
  get_trigger (pk t) before = Some t
  /\ (exists r,
        get_trigger (pk t) after = Some r
        /\ trigger_count r = trigger_count t + 1
        /\ last_triggered r = Some when)
  /\ forall k, k <> pk t -> get_trigger k after = get_trigger k before.

(** The run that [find_and_handle] looks at is the contact's latest active
    run in a usable flow: every other such run is older, or as old with a
    smaller key. *)
Definition latest_run (w : World) (contact : Z) (r : FlowRun) : Prop :=
  In r (runs w) /\ run_is_active r = true /\ run_contact r = contact
  /\ flow_usable w (Some (run_flow r)) = true
  /\ forall r', In r' (runs w) -> run_is_active r' = true ->
        run_contact r' = contact ->
        flow_usable w (Some (run_flow r')) = true ->
        r' = r \/ run_created_on r' < run_created_on r
        \/ (run_created_on r' = run_created_on r /\ run_pk r' < run_pk r).

(** The call of the flow engine that [catch_triggers] makes for a trigger. *)
Definition start_record (contact : Z) (start_msg : option Z) (t : Trigger)
    : list FlowStart :=
  match flow t with
  | Some f => [mkFlowStart f [] [contact] start_msg true]
  | None => []
  end.

(** The row of [b] in [dbx] is [b] as it is, or [b] archived. *)
Definition kept_or_archived (b : Trigger) (dbx : list Trigger) : Prop :=
  get_trigger (pk b) dbx = Some b
  \/ get_trigger (pk b) dbx = Some (set_is_archived true b).

(** Every character, some character of a string satisfies a test. *)
Fixpoint all_chars (p : ascii -> bool) (s : string) : bool :=
  match s with
  | EmptyString => true
  | String c s' => p c && all_chars p s'
  end.

Fixpoint any_char (p : ascii -> bool) (s : string) : bool :=
  match s with
  | EmptyString => false
  | String c s' => p c || any_char p s'
  end.

(** ** Export *)

Record FlowRef : Type := mkFlowRef {
  fr_id : Z;
  fr_name : string
}.

(** The dict [as_json] builds. *)
Record TriggerJson : Type := mkTriggerJson {
  tj_trigger_type : TriggerType;
  tj_keyword : option string;
  tj_flow : FlowRef;
  tj_groups : list GroupSpec;
  tj_channel : option Z
}.

Section ExportJson.
(** [Flow.name], a column of temba/flows/models.py, by flow key. *)
Variable flow_name : Z -> string.

End ExportJson.

(** What [import_triggers] reads of an exported trigger: the flow by its id. *)
Definition spec_of_json (j : TriggerJson) : TriggerSpec :=
  mkTriggerSpec (tj_trigger_type j) (tj_keyword j) (fr_id (tj_flow j))
                (tj_groups j) (tj_channel j).

(** The first maximal run of word characters of a text, read directly:
    skip what is no word character, then take word characters. *)
Fixpoint skip_nonword (s : string) : string :=
  match s with
  | EmptyString => EmptyString
  | String c s' => if is_word c then s else skip_nonword s'
  end.

Fixpoint take_word (s : string) : string :=
  match s with
  | EmptyString => EmptyString
  | String c s' => if is_word c then String c (take_word s') else EmptyString
  end.

Definition first_word (s : string) : string := take_word (skip_nonword s).

Definition set_modified_on (m : Z) (t : Trigger) : Trigger :=
  mkTrigger (pk t) (org t) (keyword t) (flow t) (last_triggered t)
            (trigger_count t) (is_archived t) (schedule t) (trigger_type t)
            (channel t) (is_active t) m.

(** Two rows agree on every column but [modified_on]. *)
Definition same_but_modified_on (a b : Trigger) : Prop :=
  set_modified_on 0 a = set_modified_on 0 b.

(** A text over ASCII: every character is below 128.  On such texts
    [is_word], [is_space] and [lower] are what [re.UNICODE], [strip] and
    [lower] of the source are. *)
Definition is_ascii (c : ascii) : bool := Nat.ltb (nat_of_ascii c) 128.

Definition ascii_text (s : string) : Prop := all_chars is_ascii s = true.

(** ** Sample data

    Organization 1 has two Keyword triggers for "join", one archived and one
    live, and two archived missed-call triggers; organization 2 has two live
    missed-call triggers.  Every trigger starts flow 1. *)

Definition sample_trigger (k o : Z) (ty : TriggerType) (kw : option string)
    (archived : bool) (fired : option Z) : Trigger :=
  mkTrigger k o kw (Some 1) fired 0 archived None ty None true 0.

Definition join_old : Trigger :=
  sample_trigger 1 1 KEYWORD_TRIGGER (Some "join"%string) true None.
Definition join_new : Trigger :=
  sample_trigger 2 1 KEYWORD_TRIGGER (Some "join"%string) false None.
Definition missed_a : Trigger :=
  sample_trigger 3 1 MISSED_CALL_TRIGGER None true (Some 20).
Definition missed_b : Trigger :=
  sample_trigger 4 1 MISSED_CALL_TRIGGER None true (Some 10).
Definition missed_c : Trigger :=
  sample_trigger 5 2 MISSED_CALL_TRIGGER None false None.
Definition missed_d : Trigger :=
  sample_trigger 6 2 MISSED_CALL_TRIGGER None false None.

Definition sample_db : list Trigger :=
  [join_old; join_new; missed_a; missed_b; missed_c; missed_d].

(** An archived Keyword trigger "JOIN" beside the live "join". *)
Definition join_caps : Trigger :=
  sample_trigger 7 1 KEYWORD_TRIGGER (Some "JOIN"%string) true None.

Definition case_db : list Trigger := [join_caps; join_new].

(** Flow 1 is an ordinary flow, flow 2 ignores triggers; group 100 is
    "Farmers"; contact 9 is in that group. *)
Definition sample_flows : list Flow :=
  [mkFlow 1 1 true false false; mkFlow 2 1 true false true].

Definition join_farmers : Trigger :=
  sample_trigger 10 1 KEYWORD_TRIGGER (Some "join"%string) false None.

Definition farmer : Contact := mkContact 9 1 [100].

Definition sample_world (tbl : list Trigger) (rs : list FlowRun) : World :=
  mkWorld tbl [(10, 100)] [] sample_flows rs
          [mkContactGroup 100 1 "Farmers" true] [mkChannel 1 1] 100 [].

Definition join_msg : Msg := mkMsg 500 1 farmer "Join now" 50.

(** An older run in the flow that ignores triggers, a newer one in flow 1. *)
Definition old_run : FlowRun := mkFlowRun 1 true 9 2 10 false.
Definition new_run : FlowRun := mkFlowRun 2 true 9 1 20 false.

(** Two live inbound-call triggers of organization 1, without groups. *)
Definition call_a : Trigger :=
  sample_trigger 20 1 INBOUND_CALL_TRIGGER None false None.
Definition call_b : Trigger :=
  sample_trigger 21 1 INBOUND_CALL_TRIGGER None false None.

(** * Properties *)

(** ** Tables *)

Lemma trigger_type_eqb_eq a b : trigger_type_eqb a b = true <-> a = b.
Proof. destruct a, b; simpl; split; congruence. Qed.

Lemma trigger_type_eqb_refl a : trigger_type_eqb a a = true.
Proof. now destruct a. Qed.

Lemma mem_In k ks : mem k ks = true <-> In k ks.
Proof.
  unfold mem. rewrite existsb_exists. split.
  - intros [x [Hx Hk]]. apply Z.eqb_eq in Hk. now subst.
  - intros H. exists k. split; [assumption | apply Z.eqb_refl].
Qed.

Lemma unique_row tbl a b :
  unique_pks tbl -> In a tbl -> In b tbl -> pk a = pk b -> a = b.
Proof.
  unfold unique_pks. induction tbl as [|r tbl IH]; simpl; [tauto|].
  intros Hnd Ha Hb Hpk. inversion Hnd as [|? ? Hnotin Hnd']; subst.
  destruct Ha as [Ha|Ha], Hb as [Hb|Hb]; subst.
  - reflexivity.
  - exfalso. apply Hnotin. rewrite Hpk. now apply in_map.
  - exfalso. apply Hnotin. rewrite <- Hpk. now apply in_map.
  - now apply IH.
Qed.

Lemma count_map_le (P Q : Trigger -> bool) f l :
  (forall r, In r l -> P (f r) = true -> Q r = true) ->
  (count P (map f l) <= count Q l)%nat.
Proof.
  unfold count. induction l as [|a l IH]; simpl; intros H; [lia|].
  assert (IH' : (List.length (filter P (map f l)) <= List.length (filter Q l))%nat)
    by (apply IH; intros; apply H; auto).
  destruct (P (f a)) eqn:Hp.
  - rewrite (H a (or_introl eq_refl) Hp). simpl. lia.
  - destruct (Q a); simpl; lia.
Qed.

Lemma count_none P l :
  (forall r, In r l -> P r = false) -> count P l = 0%nat.
Proof.
  unfold count. induction l as [|a l IH]; simpl; intros H; [reflexivity|].
  rewrite (H a (or_introl eq_refl)). apply IH. intros; apply H; auto.
Qed.

Lemma count_pk_le_1 k tbl :
  unique_pks tbl -> (count (fun r => (pk r =? k)%Z) tbl <= 1)%nat.
Proof.
  unfold unique_pks. induction tbl as [|a l IH]; simpl; intros Hnd.
  - unfold count. simpl. lia.
  - inversion Hnd as [|? ? Hnotin Hnd']; subst.
    specialize (IH Hnd'). unfold count in *. simpl.
    destruct (pk a =? k) eqn:Hk; [|assumption].
    apply Z.eqb_eq in Hk. subst k.
    assert (Z0 : count (fun r => (pk r =? pk a)%Z) l = 0%nat).
    { apply count_none. intros r Hr. apply Z.eqb_neq. intros E.
      apply Hnotin. rewrite <- E. now apply in_map. }
    unfold count in Z0. simpl. rewrite Z0. lia.
Qed.

Lemma map_pk_update q b tbl :
  map pk (update_is_archived q b tbl) = map pk tbl.
Proof.
  unfold update_is_archived. rewrite map_map. apply map_ext.
  intros r. now destruct (q r).
Qed.

Lemma map_pk_replace t tbl :
  map pk (map (fun r => if pk r =? pk t then t else r) tbl) = map pk tbl.
Proof.
  rewrite map_map. apply map_ext. intros r.
  destruct (pk r =? pk t) eqn:E; [|reflexivity].
  apply Z.eqb_eq in E. now symmetry.
Qed.

Lemma unique_pks_update q b tbl :
  unique_pks tbl -> unique_pks (update_is_archived q b tbl).
Proof. unfold unique_pks. now rewrite map_pk_update. Qed.

Lemma unique_pks_save t tbl : unique_pks tbl -> unique_pks (save t tbl).
Proof.
  unfold unique_pks, save. intros Hnd.
  destruct (existsb (fun r => pk r =? pk t) tbl) eqn:E.
  - now rewrite map_pk_replace.
  - rewrite map_app. simpl. apply NoDup_app_remove_l with (l := []).
    simpl. apply NoDup_Add with (a := pk t) (l := map pk tbl).
    + replace (map pk tbl ++ [pk t]) with (map pk tbl ++ pk t :: [])
        by reflexivity.
      replace (map pk tbl) with (map pk tbl ++ []) at 1
        by apply app_nil_r.
      apply Add_app.
    + split; [assumption|]. intros Hin. apply in_map_iff in Hin.
      destruct Hin as [r [Hr Hin]].
      assert (X : existsb (fun r => pk r =? pk t) tbl = true).
      { apply existsb_exists. exists r. split; [assumption|].
        now apply Z.eqb_eq. }
      congruence.
Qed.

(** Saving an instance that does not satisfy [P] cannot add a row that does. *)
Lemma count_save_other P t tbl :
  P t = false -> (count P (save t tbl) <= count P tbl)%nat.
Proof.
  intros Hp. unfold save.
  destruct (existsb (fun r => pk r =? pk t) tbl).
  - apply count_map_le. intros r _. destruct (pk r =? pk t); congruence.
  - unfold count. rewrite filter_app. simpl. rewrite Hp.
    rewrite app_nil_r. lia.
Qed.

(** Saving into a table where nothing satisfies [P] leaves at most one row. *)
Lemma count_save_fresh P t tbl :
  unique_pks tbl -> (forall r, In r tbl -> P r = false) ->
  (count P (save t tbl) <= 1)%nat.
Proof.
  intros Hnd Hnone. unfold save.
  destruct (existsb (fun r => pk r =? pk t) tbl).
  - apply Nat.le_trans with (count (fun r => (pk r =? pk t)%Z) tbl).
    + apply count_map_le. intros r Hr.
      destruct (pk r =? pk t); [reflexivity|].
      rewrite (Hnone r Hr). discriminate.
    + now apply count_pk_le_1.
  - unfold count. rewrite filter_app, List.length_app.
    fold (count P tbl). rewrite (count_none P tbl Hnone).
    simpl. destruct (P t); simpl; lia.
Qed.

(** Archiving rows cannot add a row that is active and not archived. *)
Lemma count_update_archive P q tbl :
  (forall r, P (set_is_archived true r) = false) ->
  (count P (update_is_archived q true tbl) <= count P tbl)%nat.
Proof.
  intros Harch. unfold update_is_archived. apply count_map_le.
  intros r _. destruct (q r); [|trivial]. rewrite Harch. discriminate.
Qed.

(** ** Sorting *)

Lemma insert_by_In {A} (before : A -> A -> bool) x y l :
  In x (insert_by before y l) <-> x = y \/ In x l.
Proof.
  induction l as [|z l IH]; simpl.
  - intuition.
  - destruct (before y z); simpl; [intuition|].
    rewrite IH. intuition.
Qed.

Lemma order_by_In {A} (before : A -> A -> bool) x l :
  In x (order_by before l) <-> In x l.
Proof.
  induction l as [|y l IH]; simpl; [tauto|].
  rewrite insert_by_In, IH. intuition.
Qed.

Lemma order_by_head_In {A} (before : A -> A -> bool) x rest l :
  order_by before l = x :: rest -> In x l.
Proof.
  intros H. apply (order_by_In before). rewrite H. now left.
Qed.

(** ** The restore loop and keyword exclusivity *)


Lemma live_keyword_archived o k r :
  live_keyword o k (set_is_archived true r) = false.
Proof.
  unfold live_keyword, live. simpl. now rewrite andb_false_r.
Qed.

Lemma live_of_type_archived ty o r :
  live_of_type ty o (set_is_archived true r) = false.
Proof.
  unfold live_of_type, live. simpl. now rewrite andb_false_r.
Qed.

Lemma displaced_unique t k db : unique_pks db -> unique_pks (displaced t k db).
Proof.
  unfold displaced. intros H.
  destruct (existsb _ db); [now apply unique_pks_update | assumption].
Qed.


Lemma displaced_count_le P t k db :
  (forall r, P (set_is_archived true r) = false) ->
  (count P (displaced t k db) <= count P db)%nat.
Proof.
  intros H. unfold displaced.
  destruct (existsb _ db); [now apply count_update_archive | lia].
Qed.

Lemma restore_one_eq db t :
  restore_one db t =
  save (set_is_archived false t)
       match keyword t with
       | Some k => if nonempty k then displaced t k db else db
       | None => db
       end.
Proof. reflexivity. Qed.

Lemma restore_one_unique db t : unique_pks db -> unique_pks (restore_one db t).
Proof.
  intros H. rewrite restore_one_eq. apply unique_pks_save.
  destruct (keyword t) as [k|]; [|assumption].
  destruct (nonempty k); [now apply displaced_unique | assumption].
Qed.


Lemma restore_one_count_le P db t :
  (forall r, P (set_is_archived true r) = false) ->
  P (set_is_archived false t) = false ->
  (count P (restore_one db t) <= count P db)%nat.
Proof.
  intros Harch Ht. rewrite restore_one_eq.
  eapply Nat.le_trans; [now apply count_save_other|].
  destruct (keyword t) as [k|]; [|lia].
  destruct (nonempty k); [now apply displaced_count_le | lia].
Qed.


Lemma restore_loop_unique l db :
  unique_pks db -> unique_pks (fold_left restore_one l db).
Proof.
  revert db. induction l as [|t l IH]; simpl; intros db H; [assumption|].
  apply IH. now apply restore_one_unique.
Qed.



(** ** The missed-call and catch-all blocks *)

Lemma selected_of_type_In ty ids db r :
  In r (selected_of_type ty ids db) <->
  In r db /\ In (pk r) ids /\ trigger_type r = ty.
Proof.
  unfold selected_of_type. rewrite filter_In, andb_true_iff, mem_In,
    trigger_type_eqb_eq. tauto.
Qed.

Lemma restore_exclusive_eq ty ids db :
  restore_exclusive ty ids db =
  match order_by restore_before (selected_of_type ty ids db) with
  | [] => db
  | first :: _ =>
      save (set_is_archived false first)
        (update_is_archived
           (fun r => (org r =? org first)
                     && trigger_type_eqb (trigger_type r) ty
                     && is_active r)
           true db)
  end.
Proof. reflexivity. Qed.

Lemma restore_exclusive_unique ty ids db :
  unique_pks db -> unique_pks (restore_exclusive ty ids db).
Proof.
  intros H. rewrite restore_exclusive_eq.
  destruct (order_by _ _); [assumption|].
  apply unique_pks_save. now apply unique_pks_update.
Qed.

(** A block only adds a live row of its own type. *)
Lemma restore_exclusive_count_le P ty ids db :
  (forall r, P (set_is_archived true r) = false) ->
  (forall r, trigger_type r = ty -> P (set_is_archived false r) = false) ->
  (count P (restore_exclusive ty ids db) <= count P db)%nat.
Proof.
  intros Harch Hty. rewrite restore_exclusive_eq.
  destruct (order_by _ _) as [|first rest] eqn:E; [lia|].
  apply order_by_head_In, selected_of_type_In in E.
  destruct E as [_ [_ Et]].
  eapply Nat.le_trans; [apply count_save_other; now apply Hty|].
  now apply count_update_archive.
Qed.


Lemma remaining_triggers_In ids db t :
  unique_pks db -> In t db -> In (pk t) ids ->
  trigger_type t <> MISSED_CALL_TRIGGER ->
  trigger_type t <> CATCH_ALL_TRIGGER ->
  In t (remaining_triggers ids db).
Proof.
  intros Hu Hin Hids Hm Hc. unfold remaining_triggers.
  apply filter_In. split; [assumption|].
  assert (Hout : forall ty, trigger_type t <> ty ->
            mem (pk t) (map pk (selected_of_type ty ids db)) = false).
  { intros ty Hty. destruct (mem _ _) eqn:E; [|reflexivity].
    apply mem_In, in_map_iff in E. destruct E as [r [Hpk Hr]].
    apply selected_of_type_In in Hr. destruct Hr as [Hr [_ Ht]].
    rewrite (unique_row db t r Hu Hin Hr (eq_sym Hpk)) in Hty.
    contradiction. }
  rewrite (Hout _ Hm), (Hout _ Hc).
  apply mem_In in Hids. now rewrite Hids.
Qed.


(** ** Restore changes nothing but [is_archived] *)

Lemma map_pk_modulo l l' :
  map (set_is_archived false) l' = map (set_is_archived false) l ->
  map pk l' = map pk l.
Proof.
  intros H.
  assert (X : forall m, map pk m = map pk (map (set_is_archived false) m))
    by (intros m; rewrite map_map; now apply map_ext).
  now rewrite (X l'), (X l), H.
Qed.

Lemma modulo_In l l' r :
  map (set_is_archived false) l' = map (set_is_archived false) l ->
  In r l' ->
  exists r0, In r0 l /\ set_is_archived false r0 = set_is_archived false r.
Proof.
  intros H Hin. apply (in_map (set_is_archived false)) in Hin.
  rewrite H in Hin. apply in_map_iff in Hin.
  destruct Hin as [r0 [E Hr0]]. eauto.
Qed.

Lemma update_modulo q b tbl :
  map (set_is_archived false) (update_is_archived q b tbl)
  = map (set_is_archived false) tbl.
Proof.
  unfold update_is_archived. rewrite map_map. apply map_ext.
  intros r. now destruct (q r).
Qed.

Lemma has_pk_In k tbl :
  In k (map pk tbl) -> existsb (fun r => pk r =? k) tbl = true.
Proof.
  intros H. apply in_map_iff in H. destruct H as [r [E Hr]].
  apply existsb_exists. exists r. split; [assumption|]. now apply Z.eqb_eq.
Qed.

Lemma save_modulo db dbx t :
  unique_pks db -> In t db ->
  map (set_is_archived false) dbx = map (set_is_archived false) db ->
  map (set_is_archived false) (save (set_is_archived false t) dbx)
  = map (set_is_archived false) db.
Proof.
  intros Hu Hin Hm. unfold save. simpl pk.
  rewrite has_pk_In
    by (rewrite (map_pk_modulo _ _ Hm); now apply in_map).
  rewrite map_map, <- Hm. apply map_ext_in. intros r Hr.
  destruct (pk r =? pk t) eqn:E; [|reflexivity].
  apply Z.eqb_eq in E.
  destruct (modulo_In _ _ _ Hm Hr) as [r0 [Hr0 E0]].
  assert (Hpk : pk r0 = pk t)
    by (rewrite <- E; change (pk (set_is_archived false r0)
                              = pk (set_is_archived false r)); now rewrite E0).
  rewrite <- (unique_row db r0 t Hu Hr0 Hin Hpk). now rewrite E0.
Qed.

Lemma restore_one_modulo db dbx t :
  unique_pks db -> In t db ->
  map (set_is_archived false) dbx = map (set_is_archived false) db ->
  map (set_is_archived false) (restore_one dbx t)
  = map (set_is_archived false) db.
Proof.
  intros Hu Hin Hm. unfold restore_one. apply save_modulo; auto.
  destruct (keyword t) as [k|]; [|assumption].
  destruct (nonempty k); [|assumption].
  unfold displaced. destruct (existsb _ dbx); [|assumption].
  now rewrite update_modulo.
Qed.

Lemma restore_loop_modulo l db dbx :
  unique_pks db -> (forall t, In t l -> In t db) ->
  map (set_is_archived false) dbx = map (set_is_archived false) db ->
  map (set_is_archived false) (fold_left restore_one l dbx)
  = map (set_is_archived false) db.
Proof.
  revert dbx. induction l as [|t l IH]; simpl; intros dbx Hu Hsub Hm;
    [assumption|].
  apply IH; auto. apply restore_one_modulo; auto.
Qed.

Lemma filter_modulo (p : Trigger -> bool) l l' :
  (forall r, p (set_is_archived false r) = p r) ->
  map (set_is_archived false) l' = map (set_is_archived false) l ->
  map (set_is_archived false) (filter p l')
  = map (set_is_archived false) (filter p l).
Proof.
  intros Hp.
  assert (X : forall m, map (set_is_archived false) (filter p m)
                        = filter p (map (set_is_archived false) m)).
  { induction m as [|a m IH]; simpl; [reflexivity|].
    rewrite Hp. destruct (p a); simpl; now rewrite IH. }
  intros H. now rewrite (X l'), (X l), H.
Qed.

Lemma order_by_map {A} (before : A -> A -> bool) (f : A -> A) l :
  (forall a b, before (f a) (f b) = before a b) ->
  map f (order_by before l) = order_by before (map f l).
Proof.
  intros Hf.
  assert (X : forall x m, map f (insert_by before x m)
                          = insert_by before (f x) (map f m)).
  { induction m as [|y m IH]; simpl; [reflexivity|].
    rewrite Hf. destruct (before x y); simpl; [reflexivity|].
    now rewrite IH. }
  induction l as [|x l IH]; simpl; [reflexivity|].
  now rewrite X, IH.
Qed.

Lemma selected_modulo ty ids db dbx :
  map (set_is_archived false) dbx = map (set_is_archived false) db ->
  map (set_is_archived false)
      (order_by restore_before (selected_of_type ty ids dbx))
  = map (set_is_archived false)
        (order_by restore_before (selected_of_type ty ids db)).
Proof.
  intros Hm.
  rewrite !(order_by_map restore_before (set_is_archived false))
    by reflexivity.
  f_equal. unfold selected_of_type. now apply filter_modulo.
Qed.

Lemma selected_first_modulo ty ids db dbx first rest :
  map (set_is_archived false) dbx = map (set_is_archived false) db ->
  order_by restore_before (selected_of_type ty ids db) = first :: rest ->
  exists first1 rest1,
    order_by restore_before (selected_of_type ty ids dbx) = first1 :: rest1
    /\ set_is_archived false first1 = set_is_archived false first.
Proof.
  intros Hm Hs. pose proof (selected_modulo ty ids db dbx Hm) as X.
  rewrite Hs in X.
  destruct (order_by restore_before (selected_of_type ty ids dbx))
    as [|first1 rest1]; [discriminate|].
  rewrite !map_cons in X. exists first1, rest1.
  split; [reflexivity | congruence].
Qed.

Lemma restore_exclusive_modulo ty ids db dbx :
  unique_pks db ->
  map (set_is_archived false) dbx = map (set_is_archived false) db ->
  map (set_is_archived false) (restore_exclusive ty ids dbx)
  = map (set_is_archived false) db.
Proof.
  intros Hu Hm. unfold restore_exclusive.
  destruct (order_by _ _) as [|first rest] eqn:E; [assumption|].
  apply order_by_head_In, selected_of_type_In in E. destruct E as [Hin _].
  destruct (modulo_In _ _ _ Hm Hin) as [r1 [Hr1 E1]].
  rewrite <- E1. apply save_modulo; auto.
  now rewrite update_modulo.
Qed.

(** ** Rows by key *)

Lemma get_trigger_update k q b tbl :
  get_trigger k (update_is_archived q b tbl)
  = option_map (fun r => if q r then set_is_archived b r else r)
               (get_trigger k tbl).
Proof.
  unfold get_trigger, update_is_archived.
  induction tbl as [|a l IH]; simpl; [reflexivity|].
  replace (pk (if q a then set_is_archived b a else a)) with (pk a)
    by (now destruct (q a)).
  destruct (pk a =? k); [reflexivity | assumption].
Qed.

Lemma get_trigger_save_other k t tbl :
  pk t <> k -> get_trigger k (save t tbl) = get_trigger k tbl.
Proof.
  intros Hne. unfold get_trigger, save.
  destruct (existsb (fun r => pk r =? pk t) tbl).
  - induction tbl as [|a l IH]; simpl; [reflexivity|].
    destruct (pk a =? pk t) eqn:E.
    + apply Z.eqb_eq in E.
      assert (X : (pk t =? k) = false) by now apply Z.eqb_neq.
      assert (Y : (pk a =? k) = false) by (rewrite E; exact X).
      now rewrite X, Y.
    + destruct (pk a =? k); [reflexivity | assumption].
  - induction tbl as [|a l IH]; simpl.
    + assert (X : (pk t =? k) = false) by now apply Z.eqb_neq.
      now rewrite X.
    + destruct (pk a =? k); [reflexivity | assumption].
Qed.

Lemma get_trigger_save_same t tbl : get_trigger (pk t) (save t tbl) = Some t.
Proof.
  unfold get_trigger, save.
  destruct (existsb (fun r => pk r =? pk t) tbl) eqn:Ex.
  - induction tbl as [|a l IH]; simpl in *; [discriminate|].
    destruct (pk a =? pk t) eqn:E.
    + now rewrite Z.eqb_refl.
    + rewrite E. apply IH. assumption.
  - induction tbl as [|a l IH]; simpl in *.
    + now rewrite Z.eqb_refl.
    + apply orb_false_elim in Ex. destruct Ex as [E Ex].
      rewrite E. now apply IH.
Qed.

Lemma get_trigger_In k tbl r :
  get_trigger k tbl = Some r -> In r tbl /\ pk r = k.
Proof.
  unfold get_trigger. intros H. apply find_some in H.
  destruct H as [Hin E]. apply Z.eqb_eq in E. auto.
Qed.

Lemma In_get_trigger tbl r :
  unique_pks tbl -> In r tbl -> get_trigger (pk r) tbl = Some r.
Proof.
  intros Hu Hin. destruct (get_trigger (pk r) tbl) as [r'|] eqn:E.
  - apply get_trigger_In in E. destruct E as [Hin' Hpk].
    now rewrite (unique_row tbl r' r Hu Hin' Hin Hpk).
  - unfold get_trigger in E.
    pose proof (find_none _ _ E r Hin) as X. simpl in X.
    rewrite Z.eqb_refl in X. discriminate.
Qed.

(** ** At most one live trigger of an exclusive type *)

Lemma restore_exclusive_own ty ids dbx first rest :
  unique_pks dbx ->
  order_by restore_before (selected_of_type ty ids dbx) = first :: rest ->
  (count (live_of_type ty (org first)) (restore_exclusive ty ids dbx) <= 1)%nat.
Proof.
  intros Hu E. unfold restore_exclusive. rewrite E.
  apply count_save_fresh; [now apply unique_pks_update|].
  intros r Hr. unfold update_is_archived in Hr. apply in_map_iff in Hr.
  destruct Hr as [r0 [Hr0 _]]. subst r.
  destruct ((org r0 =? org first)
            && trigger_type_eqb (trigger_type r0) ty && is_active r0) eqn:Hq.
  - apply live_of_type_archived.
  - unfold live_of_type, live.
    destruct (org r0 =? org first), (trigger_type_eqb (trigger_type r0) ty),
      (is_active r0), (is_archived r0); simpl in *; congruence.
Qed.

Lemma live_of_type_inv ty o r :
  live_of_type ty o r = true -> live r = true /\ trigger_type r = ty /\ org r = o.
Proof.
  unfold live_of_type. rewrite !andb_true_iff, trigger_type_eqb_eq, Z.eqb_eq.
  tauto.
Qed.

Lemma restore_exclusive_count_max ty ty' o ids dbx :
  unique_pks dbx ->
  (count (live_of_type ty o) (restore_exclusive ty' ids dbx)
   <= Nat.max 1 (count (live_of_type ty o) dbx))%nat.
Proof.
  intros Hu.
  destruct (order_by restore_before (selected_of_type ty' ids dbx))
    as [|first rest] eqn:E.
  - unfold restore_exclusive. rewrite E. lia.
  - destruct (live_of_type ty o (set_is_archived false first)) eqn:L.
    + apply live_of_type_inv in L. destruct L as [_ [Ht Ho]].
      simpl in Ht, Ho.
      pose proof (order_by_head_In _ _ _ _ E) as Hin.
      apply selected_of_type_In in Hin. destruct Hin as [_ [_ Ht']].
      assert (Hty : ty' = ty) by congruence. rewrite Hty in *. subst o.
      pose proof (restore_exclusive_own ty ids dbx first rest Hu E). lia.
    + unfold restore_exclusive. rewrite E.
      pose proof (count_save_other (live_of_type ty o)
                    (set_is_archived false first)
                    (update_is_archived
                       (fun r => (org r =? org first)
                                 && trigger_type_eqb (trigger_type r) ty'
                                 && is_active r) true dbx) L).
      pose proof (count_update_archive (live_of_type ty o)
                    (fun r => (org r =? org first)
                              && trigger_type_eqb (trigger_type r) ty'
                              && is_active r) dbx
                    (live_of_type_archived ty o)).
      lia.
Qed.

Lemma remaining_triggers_inv ids db t :
  In t (remaining_triggers ids db) ->
  In t db /\ In (pk t) ids
  /\ trigger_type t <> MISSED_CALL_TRIGGER
  /\ trigger_type t <> CATCH_ALL_TRIGGER.
Proof.
  unfold remaining_triggers. rewrite filter_In, !andb_true_iff, !negb_true_iff.
  intros [Hin [[Hids Hm] Hc]]. apply mem_In in Hids.
  assert (Hout : forall ty,
            mem (pk t) (map pk (selected_of_type ty ids db)) = false ->
            trigger_type t <> ty).
  { intros ty Hf Ht.
    assert (X : mem (pk t) (map pk (selected_of_type ty ids db)) = true).
    { apply mem_In, in_map. apply selected_of_type_In. auto. }
    congruence. }
  auto.
Qed.

Lemma restore_loop_count_le P l db :
  (forall r, P (set_is_archived true r) = false) ->
  (forall t, In t l -> P (set_is_archived false t) = false) ->
  (count P (fold_left restore_one l db) <= count P db)%nat.
Proof.
  intros Harch. revert db. induction l as [|t l IH]; simpl; intros db Hl;
    [lia|].
  eapply Nat.le_trans; [apply IH; intros; apply Hl; auto|].
  apply restore_one_count_le; auto.
Qed.

Lemma restore_loop_other_type ty o ids db :
  ty = MISSED_CALL_TRIGGER \/ ty = CATCH_ALL_TRIGGER ->
  (count (live_of_type ty o) (fold_left restore_one (remaining_triggers ids db) db)
   <= count (live_of_type ty o) db)%nat.
Proof.
  intros Hty. apply restore_loop_count_le.
  - apply live_of_type_archived.
  - intros t Ht. apply remaining_triggers_inv in Ht.
    destruct Ht as [_ [_ [Hm Hc]]].
    destruct (live_of_type ty o (set_is_archived false t)) eqn:L;
      [|reflexivity].
    apply live_of_type_inv in L. destruct L as [_ [Ht _]]. simpl in Ht.
    destruct Hty; congruence.
Qed.

(** ** The order of [order_by('-last_triggered', '-modified_on')] *)

Lemma restore_before_total a b :
  restore_before a b = true \/ restore_before b a = true.
Proof.
  unfold restore_before.
  destruct (last_triggered a) as [x|], (last_triggered b) as [y|]; auto.
  - destruct (Z.ltb_spec y x), (Z.ltb_spec x y), (Z.eqb_spec x y),
      (Z.eqb_spec y x), (Z.leb_spec (modified_on b) (modified_on a)),
      (Z.leb_spec (modified_on a) (modified_on b)); simpl; auto; lia.
  - destruct (Z.leb_spec (modified_on b) (modified_on a)),
      (Z.leb_spec (modified_on a) (modified_on b)); auto; lia.
Qed.

Lemma restore_before_trans a b c :
  restore_before a b = true -> restore_before b c = true ->
  restore_before a c = true.
Proof.
  unfold restore_before.
  destruct (last_triggered a) as [x|], (last_triggered b) as [y|],
    (last_triggered c) as [z|]; auto; try discriminate.
  - rewrite !orb_true_iff, !andb_true_iff, !Z.ltb_lt, !Z.eqb_eq, !Z.leb_le.
    lia.
  - rewrite !Z.leb_le. lia.
Qed.

Section HeadOfOrder.
Context {A : Type} (before : A -> A -> bool).
Hypothesis before_total : forall a b, before a b = true \/ before b a = true.
Hypothesis before_trans :
  forall a b c, before a b = true -> before b c = true -> before a c = true.

Lemma order_by_head_least l h rest :
  order_by before l = h :: rest -> forall x, In x l -> before h x = true.
Proof.
  revert h rest. induction l as [|y l IH]; simpl; intros h rest E x Hx;
    [contradiction|].
  destruct (order_by before l) as [|z s] eqn:Es.
  - simpl in E. injection E as -> _.
    assert (l = []).
    { destruct l as [|u l']; [reflexivity|].
      assert (X : In u (order_by before (u :: l')))
        by (apply order_by_In; now left).
      rewrite Es in X. contradiction. }
    subst l. destruct Hx as [->|[]].
    destruct (before_total x x); assumption.
  - specialize (IH z s eq_refl). simpl in E.
    destruct (before y z) eqn:Byz.
    + injection E as -> _. destruct Hx as [->|Hx].
      * destruct (before_total x x); assumption.
      * eapply before_trans; [exact Byz | now apply IH].
    + injection E as -> _. destruct Hx as [->|Hx].
      * destruct (before_total h x) as [H|H]; [assumption | congruence].
      * now apply IH.
Qed.
End HeadOfOrder.

(** ** Which rows the blocks leave alone *)

Lemma set_is_archived_same r : set_is_archived (is_archived r) r = r.
Proof. now destruct r. Qed.

Lemma update_keeps_archived_row k q tbl b :
  is_archived b = true -> get_trigger k tbl = Some b ->
  get_trigger k (update_is_archived q true tbl) = Some b.
Proof.
  intros Ha Hg. rewrite get_trigger_update, Hg. simpl.
  destruct (q b); [|reflexivity].
  now rewrite <- Ha, set_is_archived_same.
Qed.

Lemma restore_one_keeps_row b db t :
  is_archived b = true -> pk t <> pk b ->
  get_trigger (pk b) db = Some b ->
  get_trigger (pk b) (restore_one db t) = Some b.
Proof.
  intros Ha Hne Hg. unfold restore_one.
  rewrite get_trigger_save_other by exact Hne.
  destruct (keyword t) as [k|]; [|assumption].
  destruct (nonempty k); [|assumption].
  unfold displaced. destruct (existsb _ db); [|assumption].
  now apply update_keeps_archived_row.
Qed.

Lemma restore_loop_keeps_row b l db :
  is_archived b = true -> (forall t, In t l -> pk t <> pk b) ->
  get_trigger (pk b) db = Some b ->
  get_trigger (pk b) (fold_left restore_one l db) = Some b.
Proof.
  intros Ha. revert db. induction l as [|t l IH]; simpl; intros db Hl Hg;
    [assumption|].
  apply IH; [intros; apply Hl; auto|].
  apply restore_one_keeps_row; auto.
Qed.

Lemma restore_exclusive_keeps_row ty ids dbx r :
  unique_pks dbx -> trigger_type r <> ty ->
  get_trigger (pk r) dbx = Some r ->
  get_trigger (pk r) (restore_exclusive ty ids dbx) = Some r.
Proof.
  intros Hu Hty Hg. unfold restore_exclusive.
  destruct (order_by _ _) as [|first rest] eqn:E; [assumption|].
  apply order_by_head_In, selected_of_type_In in E.
  destruct E as [Hin [_ Ht]].
  apply get_trigger_In in Hg as Hr. destruct Hr as [Hr _].
  rewrite get_trigger_save_other.
  - rewrite get_trigger_update, Hg. simpl.
    assert (X : trigger_type_eqb (trigger_type r) ty = false).
    { destruct (trigger_type_eqb (trigger_type r) ty) eqn:Y; [|reflexivity].
      apply trigger_type_eqb_eq in Y. contradiction. }
    now rewrite X, andb_false_r.
  - simpl. intros Hpk.
    rewrite (unique_row dbx first r Hu Hin Hr Hpk) in Ht. contradiction.
Qed.

Lemma restore_loop_of_restore ids db :
  unique_pks db ->
  unique_pks (fold_left restore_one (remaining_triggers ids db) db)
  /\ map (set_is_archived false)
         (fold_left restore_one (remaining_triggers ids db) db)
     = map (set_is_archived false) db.
Proof.
  intros Hu. split; [now apply restore_loop_unique|].
  apply restore_loop_modulo; auto.
  intros t Ht. now apply remaining_triggers_inv in Ht.
Qed.

(** The block of type [ty], run on a table that differs from [db] in
    [is_archived] only, restores the first trigger of [db]'s selection. *)
Lemma restore_exclusive_first ty ids db dbx first rest :
  unique_pks dbx ->
  map (set_is_archived false) dbx = map (set_is_archived false) db ->
  order_by restore_before (selected_of_type ty ids db) = first :: rest ->
  (count (live_of_type ty (org first)) (restore_exclusive ty ids dbx) <= 1)%nat
  /\ get_trigger (pk first) (restore_exclusive ty ids dbx)
     = Some (set_is_archived false first).
Proof.
  intros Hu Hm Hs.
  destruct (selected_first_modulo ty ids db dbx first rest Hm Hs)
    as [first1 [rest1 [E1 Ef]]].
  assert (Ho : org first1 = org first)
    by (change (org (set_is_archived false first1)
                = org (set_is_archived false first)); now rewrite Ef).
  split.
  - rewrite <- Ho. eapply restore_exclusive_own; eauto.
  - unfold restore_exclusive. rewrite E1, Ef.
    apply (get_trigger_save_same (set_is_archived false first)).
Qed.

Lemma restore_winner ty ids db first rest :
  unique_pks db ->
  ty = MISSED_CALL_TRIGGER \/ ty = CATCH_ALL_TRIGGER ->
  order_by restore_before (selected_of_type ty ids db) = first :: rest ->
  (count (live_of_type ty (org first)) (snd (apply_action_restore ids db))
   <= 1)%nat
  /\ get_trigger (pk first) (snd (apply_action_restore ids db))
     = Some (set_is_archived false first).
Proof.
  intros Hu Hty Hs. unfold apply_action_restore. simpl.
  destruct (restore_loop_of_restore ids db Hu) as [Hu1 Hm1].
  set (db1 := fold_left restore_one (remaining_triggers ids db) db) in *.
  pose proof (restore_exclusive_unique MISSED_CALL_TRIGGER ids db1 Hu1) as Hu2.
  pose proof (restore_exclusive_modulo MISSED_CALL_TRIGGER ids db db1 Hu Hm1)
    as Hm2.
  destruct Hty as [-> | ->].
  - destruct (restore_exclusive_first MISSED_CALL_TRIGGER ids db db1 first rest
                Hu1 Hm1 Hs) as [Hc Hg].
    pose proof (order_by_head_In _ _ _ _ Hs) as Hin.
    apply selected_of_type_In in Hin. destruct Hin as [_ [_ Ht]].
    split.
    + eapply Nat.le_trans; [|exact Hc].
      apply restore_exclusive_count_le; [apply live_of_type_archived|].
      intros r Hr. unfold live_of_type. simpl. rewrite Hr. simpl.
      now rewrite andb_false_r.
    + apply (restore_exclusive_keeps_row CATCH_ALL_TRIGGER ids _
               (set_is_archived false first)); auto.
      simpl. rewrite Ht. discriminate.
  - now apply (restore_exclusive_first CATCH_ALL_TRIGGER ids db _ first rest).
Qed.

Lemma restore_keeps_exclusive ty o ids db :
  unique_pks db ->
  ty = MISSED_CALL_TRIGGER \/ ty = CATCH_ALL_TRIGGER ->
  (count (live_of_type ty o) db <= 1)%nat ->
  (count (live_of_type ty o) (snd (apply_action_restore ids db)) <= 1)%nat.
Proof.
  intros Hu Hty Hc. unfold apply_action_restore. simpl.
  destruct (restore_loop_of_restore ids db Hu) as [Hu1 _].
  pose proof (restore_loop_other_type ty o ids db Hty) as H1.
  set (db1 := fold_left restore_one (remaining_triggers ids db) db) in *.
  pose proof (restore_exclusive_unique MISSED_CALL_TRIGGER ids db1 Hu1) as Hu2.
  pose proof (restore_exclusive_count_max ty MISSED_CALL_TRIGGER o ids db1 Hu1).
  pose proof (restore_exclusive_count_max ty CATCH_ALL_TRIGGER o ids
                (restore_exclusive MISSED_CALL_TRIGGER ids db1) Hu2).
  lia.
Qed.

(** A selected trigger of type [ty] that is archived and is not the first of
    the selection stays as it is. *)
Lemma restore_loser ty ids db first rest b :
  unique_pks db ->
  ty = MISSED_CALL_TRIGGER \/ ty = CATCH_ALL_TRIGGER ->
  order_by restore_before (selected_of_type ty ids db) = first :: rest ->
  In b db -> trigger_type b = ty -> is_archived b = true ->
  pk b <> pk first ->
  get_trigger (pk b) (snd (apply_action_restore ids db)) = Some b.
Proof.
  intros Hu Hty Hs Hb Htb Hab Hne. unfold apply_action_restore. simpl.
  destruct (restore_loop_of_restore ids db Hu) as [Hu1 Hm1].
  assert (Hg1 : get_trigger (pk b)
                  (fold_left restore_one (remaining_triggers ids db) db)
                = Some b).
  { apply restore_loop_keeps_row; [assumption| |now apply In_get_trigger].
    intros t Ht Hpk. apply remaining_triggers_inv in Ht.
    destruct Ht as [Hin [_ [Hm Hc]]].
    rewrite (unique_row db t b Hu Hin Hb Hpk) in Hm, Hc.
    destruct Hty; congruence. }
  set (db1 := fold_left restore_one (remaining_triggers ids db) db) in *.
  pose proof (restore_exclusive_unique MISSED_CALL_TRIGGER ids db1 Hu1) as Hu2.
  pose proof (restore_exclusive_modulo MISSED_CALL_TRIGGER ids db db1 Hu Hm1)
    as Hm2.
  assert (Hown : forall dbx,
            map (set_is_archived false) dbx = map (set_is_archived false) db ->
            get_trigger (pk b) dbx = Some b ->
            get_trigger (pk b) (restore_exclusive ty ids dbx) = Some b).
  { intros dbx Hm Hg.
    destruct (selected_first_modulo ty ids db dbx first rest Hm Hs)
      as [first1 [rest1 [E1 Ef]]].
    unfold restore_exclusive. rewrite E1, Ef.
    rewrite get_trigger_save_other by (simpl; congruence).
    now apply update_keeps_archived_row. }
  destruct Hty as [Hty | Hty]; subst ty.
  - apply restore_exclusive_keeps_row; auto.
    rewrite Htb. discriminate.
  - apply Hown; auto.
    apply restore_exclusive_keeps_row; auto. rewrite Htb. discriminate.
Qed.

(** ** Rows the loop does not reach *)

Lemma restore_one_keeps_other_row r db x :
  pk x <> pk r ->
  (forall kx, keyword x = Some kx -> same_keyword_triggers x kx r = false) ->
  get_trigger (pk r) db = Some r ->
  get_trigger (pk r) (restore_one db x) = Some r.
Proof.
  intros Hne Hq Hg. unfold restore_one.
  rewrite get_trigger_save_other by exact Hne.
  destruct (keyword x) as [kx|]; [|assumption].
  destruct (nonempty kx); [|assumption].
  unfold displaced. destruct (existsb _ db); [|assumption].
  rewrite get_trigger_update, Hg. simpl. now rewrite (Hq kx eq_refl).
Qed.

Lemma restore_loop_keeps_other_row r l db :
  (forall x, In x l ->
     pk x <> pk r
     /\ forall kx, keyword x = Some kx -> same_keyword_triggers x kx r = false) ->
  get_trigger (pk r) db = Some r ->
  get_trigger (pk r) (fold_left restore_one l db) = Some r.
Proof.
  revert db. induction l as [|x l IH]; simpl; intros db Hl Hg; [assumption|].
  apply IH; [intros; apply Hl; auto|].
  destruct (Hl x (or_introl eq_refl)) as [Hne Hq].
  now apply restore_one_keeps_other_row.
Qed.

(** A trigger of an exclusive type is left as it is when no trigger of its
    type is selected, or when the first one selected is of another
    organization. *)
Lemma restore_untouched_type ty ids db b :
  unique_pks db ->
  ty = MISSED_CALL_TRIGGER \/ ty = CATCH_ALL_TRIGGER ->
  In b db -> trigger_type b = ty ->
  (selected_of_type ty ids db = []
   \/ exists first rest,
        order_by restore_before (selected_of_type ty ids db) = first :: rest
        /\ org b <> org first) ->
  get_trigger (pk b) (snd (apply_action_restore ids db)) = Some b.
Proof.
  intros Hu Hty Hb Htb Hsel.
  destruct (restore_loop_of_restore ids db Hu) as [Hu1 Hm1].
  pose proof (restore_exclusive_unique MISSED_CALL_TRIGGER ids _ Hu1) as Hu2.
  pose proof (restore_exclusive_modulo MISSED_CALL_TRIGGER ids db _ Hu Hm1)
    as Hm2.
  assert (Hloop : get_trigger (pk b)
                    (fold_left restore_one (remaining_triggers ids db) db)
                  = Some b).
  { apply restore_loop_keeps_other_row; [|now apply In_get_trigger].
    intros x Hx. apply remaining_triggers_inv in Hx.
    destruct Hx as [Hx [_ [Hm Hc]]]. split.
    - intros E. rewrite (unique_row db x b Hu Hx Hb E) in Hm, Hc.
      destruct Hty; congruence.
    - intros kx _. unfold same_keyword_triggers. rewrite Htb.
      destruct Hty; subst ty; simpl; now rewrite andb_false_r. }
  assert (Hown : forall dbx,
            unique_pks dbx ->
            map (set_is_archived false) dbx = map (set_is_archived false) db ->
            get_trigger (pk b) dbx = Some b ->
            get_trigger (pk b) (restore_exclusive ty ids dbx) = Some b).
  { intros dbx Hux Hm Hg. unfold restore_exclusive.
    pose proof (selected_modulo ty ids db dbx Hm) as Hsm.
    destruct (order_by restore_before (selected_of_type ty ids dbx))
      as [|first1 rest1] eqn:E1; [assumption|].
    destruct Hsel as [Hnil | [first [rest [Hs Ho]]]].
    - rewrite Hnil in Hsm. simpl in Hsm. discriminate.
    - rewrite Hs in Hsm. rewrite !map_cons in Hsm.
      assert (Ef : set_is_archived false first1 = set_is_archived false first)
        by congruence.
      assert (Eo : org first1 = org first)
        by (change (org (set_is_archived false first1)
                    = org (set_is_archived false first)); now rewrite Ef).
      apply order_by_head_In, selected_of_type_In in E1.
      destruct E1 as [Hf1 _].
      apply get_trigger_In in Hg as Hbin. destruct Hbin as [Hbin _].
      rewrite get_trigger_save_other.
      + rewrite get_trigger_update, Hg. simpl.
        assert (X : (org b =? org first1) = false)
          by (apply Z.eqb_neq; congruence).
        now rewrite X.
      + simpl. intros Epk.
        rewrite (unique_row dbx first1 b Hux Hf1 Hbin Epk) in Eo.
        contradiction. }
  unfold apply_action_restore. simpl.
  destruct Hty as [Hty | Hty]; subst ty.
  - apply restore_exclusive_keeps_row; [assumption | rewrite Htb; discriminate|].
    now apply Hown.
  - apply Hown; [assumption | assumption|].
    apply restore_exclusive_keeps_row; [assumption | rewrite Htb; discriminate|].
    assumption.
Qed.

(** ** Claims about restore *)

Lemma sample_db_unique : unique_pks sample_db.
Proof.
  unfold unique_pks. simpl.
  repeat (constructor; [simpl; intuition discriminate|]). constructor.
Qed.


(** C2, the claim as stated fails: organization 2 has two live missed-call
    triggers before a restore of the archived Keyword trigger 1, and still
    has both after it. *)
Lemma restore_leaves_other_missed_calls :
  ~ (forall ids db o, unique_pks db ->
       at_most_one (live_of_type MISSED_CALL_TRIGGER o)
                   (snd (apply_action_restore ids db))).
Proof.
  intros H. specialize (H [1] sample_db 2 sample_db_unique).
  unfold at_most_one in H. vm_compute in H. lia.
Qed.

(** C2, amended: after [apply_action_restore], the organization of the
    first selected missed-call (catch-all) trigger in the order of
    (last_triggered, modified_on) descending has at most one live trigger
    of that type, and that first trigger is the one restored: its row is
    non-archived and, [modified_on] apart, otherwise as it was.  Every
    organization that had at most one live trigger of the type before the
    call has at most one after it.  A trigger of the type in another
    organization than that first trigger's -- in any organization, when no
    trigger of the type is selected -- is left exactly as it was.  If the
    selected missed-call triggers are [a] and [b], both fired, [a] later
    than [b], and [b] was archived, then [a] ends non-archived and [b] stays
    as it was, archived. *)
Theorem restore_exclusive_types ids db :
  unique_pks db ->
  (forall ty first rest,
      ty = MISSED_CALL_TRIGGER \/ ty = CATCH_ALL_TRIGGER ->
      order_by restore_before (selected_of_type ty ids db) = first :: rest ->
      at_most_one (live_of_type ty (org first))
                  (snd (apply_action_restore ids db))
      /\ (exists r,
            get_trigger (pk first) (snd (apply_action_restore ids db)) = Some r
            /\ is_archived r = false
            /\ same_but_modified_on r (set_is_archived false first))
      /\ (forall x, In x (selected_of_type ty ids db) ->
            restore_before first x = true))
  /\ (forall ty o,
        ty = MISSED_CALL_TRIGGER \/ ty = CATCH_ALL_TRIGGER ->
        at_most_one (live_of_type ty o) db ->
        at_most_one (live_of_type ty o) (snd (apply_action_restore ids db)))
  /\ (forall ty b,
        ty = MISSED_CALL_TRIGGER \/ ty = CATCH_ALL_TRIGGER ->
        In b db -> trigger_type b = ty ->
        (selected_of_type ty ids db = []
         \/ exists first rest,
              order_by restore_before (selected_of_type ty ids db)
              = first :: rest
              /\ org b <> org first) ->
        get_trigger (pk b) (snd (apply_action_restore ids db)) = Some b)
  /\ (forall a b ta tb,
        In a db -> In b db -> In (pk a) ids -> In (pk b) ids ->
        trigger_type a = MISSED_CALL_TRIGGER ->
        trigger_type b = MISSED_CALL_TRIGGER ->
        (forall r, In r (selected_of_type MISSED_CALL_TRIGGER ids db) ->
           r = a \/ r = b) ->
        is_archived b = true ->
        last_triggered a = Some ta -> last_triggered b = Some tb ->
        tb < ta ->
        (exists r,
           get_trigger (pk a) (snd (apply_action_restore ids db)) = Some r
           /\ is_archived r = false
           /\ same_but_modified_on r (set_is_archived false a))
        /\ get_trigger (pk b) (snd (apply_action_restore ids db)) = Some b).
Proof.
  intros Hu.
  assert (Hwin : forall ty first rest,
            ty = MISSED_CALL_TRIGGER \/ ty = CATCH_ALL_TRIGGER ->
            order_by restore_before (selected_of_type ty ids db)
            = first :: rest ->
            exists r,
              get_trigger (pk first) (snd (apply_action_restore ids db))
              = Some r
              /\ is_archived r = false
              /\ same_but_modified_on r (set_is_archived false first)).
  { intros ty first rest Hty Hs.
    destruct (restore_winner ty ids db first rest Hu Hty Hs) as [_ Hg].
    exists (set_is_archived false first). repeat split. exact Hg. }
  split; [|split; [|split]].
  - intros ty first rest Hty Hs.
    destruct (restore_winner ty ids db first rest Hu Hty Hs) as [Hc _].
    split; [assumption|]. split; [now apply (Hwin ty first rest)|].
    apply (order_by_head_least restore_before restore_before_total
             restore_before_trans _ _ _ Hs).
  - intros ty o Hty Hc. now apply restore_keeps_exclusive.
  - intros ty b Hty Hb Htb Hsel. now apply (restore_untouched_type ty).
  - intros a b ta tb Ha Hb Hia Hib Hta Htb Honly Harch Hla Hlb Hlt.
    assert (Hsa : In a (selected_of_type MISSED_CALL_TRIGGER ids db))
      by (apply selected_of_type_In; auto).
    assert (Hsb : In b (selected_of_type MISSED_CALL_TRIGGER ids db))
      by (apply selected_of_type_In; auto).
    destruct (order_by restore_before
                (selected_of_type MISSED_CALL_TRIGGER ids db))
      as [|first rest] eqn:Hs.
    { apply (order_by_In restore_before) in Hsa. rewrite Hs in Hsa.
      contradiction. }
    assert (Hfirst : first = a).
    { destruct (Honly first (order_by_head_In _ _ _ _ Hs)) as [E|E];
        [assumption|]. subst first.
      pose proof (order_by_head_least restore_before restore_before_total
                    restore_before_trans _ _ _ Hs a Hsa) as X.
      unfold restore_before in X. rewrite Hla, Hlb in X.
      apply orb_prop in X. destruct X as [X|X].
      - apply Z.ltb_lt in X. lia.
      - apply andb_prop in X. destruct X as [X _].
        apply Z.eqb_eq in X. lia. }
    subst first.
    assert (Hne : pk b <> pk a).
    { intros E. rewrite (unique_row db b a Hu Hb Ha E) in Hlb.
      rewrite Hla in Hlb. injection Hlb as Hlb. lia. }
    split.
    + apply (Hwin MISSED_CALL_TRIGGER a rest (or_introl eq_refl) Hs).
    + apply (restore_loser MISSED_CALL_TRIGGER ids db a rest b); auto.
Qed.

Lemma restore_exclusive_types_witness :
  at_most_one (live_of_type MISSED_CALL_TRIGGER 1)
              (snd (apply_action_restore [3; 4] sample_db))
  /\ (exists r,
        get_trigger 3 (snd (apply_action_restore [3; 4] sample_db)) = Some r
        /\ is_archived r = false
        /\ same_but_modified_on r (set_is_archived false missed_a))
  /\ get_trigger 4 (snd (apply_action_restore [3; 4] sample_db))
     = Some missed_b
  /\ get_trigger 5 (snd (apply_action_restore [3; 4] sample_db))
     = Some missed_c.
Proof.
  destruct (restore_exclusive_types [3; 4] sample_db sample_db_unique)
    as [H1 [H2 [H3 H4]]].
  split; [exact (proj1 (H1 MISSED_CALL_TRIGGER missed_a [missed_b]
                           (or_introl eq_refl) eq_refl))|].
  destruct (H4 missed_a missed_b 20 10
              (or_intror (or_intror (or_introl eq_refl)))
              (or_intror (or_intror (or_intror (or_introl eq_refl))))
              (or_introl eq_refl) (or_intror (or_introl eq_refl))
              eq_refl eq_refl
              (fun r Hr =>
                 match Hr with
                 | or_introl E => or_introl (eq_sym E)
                 | or_intror (or_introl E) => or_intror (eq_sym E)
                 | or_intror (or_intror F) => match F with end
                 end)
              eq_refl eq_refl eq_refl eq_refl) as [Ha Hb].
  split; [exact Ha|]. split; [exact Hb|].
  apply (H3 MISSED_CALL_TRIGGER missed_c (or_introl eq_refl)).
  - simpl. auto 10.
  - reflexivity.
  - right. exists missed_a, [missed_b]. split; [reflexivity | discriminate].
Defined.

(** ** Keywords are displaced by exact equality *)

(** The row of a trigger the loop restores, when no later trigger of the
    loop displaces it. *)
Lemma restore_loop_restores t l db :
  (forall x, In x l ->
     x = t
     \/ (pk x <> pk t
         /\ forall kx, keyword x = Some kx ->
              same_keyword_triggers x kx (set_is_archived false t) = false)) ->
  In t l \/ get_trigger (pk t) db = Some (set_is_archived false t) ->
  get_trigger (pk t) (fold_left restore_one l db)
  = Some (set_is_archived false t).
Proof.
  revert db. induction l as [|x l IH]; simpl; intros db Hl Hstart.
  - destruct Hstart as [[]|Hg]. assumption.
  - apply IH; [intros; apply Hl; auto|].
    destruct (Hl x (or_introl eq_refl)) as [->|[Hne Hq]].
    + right. unfold restore_one.
      apply (get_trigger_save_same (set_is_archived false t)).
    + destruct Hstart as [[E|Hin]|Hg].
      * subst x. contradiction.
      * now left.
      * right.
        apply (restore_one_keeps_other_row (set_is_archived false t)); auto.
Qed.

Lemma keyword_is_false k r :
  keyword r <> Some k -> keyword_is k r = false.
Proof.
  unfold keyword_is. destruct (keyword r) as [k'|]; [|reflexivity].
  intros H. destruct (String.eqb_spec k' k); [|reflexivity].
  subst. contradiction.
Qed.

(** C10: the loop of [apply_action_restore] displaces by exact keyword.  When
    the Keyword trigger [t] with keyword [k] is restored and [u] is a live
    Keyword trigger of the same organization whose keyword [ku] differs from
    [k] in letter case only (no other selected trigger of that organization
    having keyword [k] or [ku]), [u] is left as it is and [t] is restored:
    both rows are live, and both pass the filter of [find_and_handle] for
    every message keyword that matches [k] without regard to case. *)
Theorem restore_keyword_case_sensitive ids db t u k ku :
  unique_pks db ->
  In t db -> In u db -> In (pk t) ids ->
  trigger_type t = KEYWORD_TRIGGER -> trigger_type u = KEYWORD_TRIGGER ->
  org u = org t ->
  keyword t = Some k -> keyword u = Some ku ->
  k <> ku -> upper k = upper ku ->
  is_active t = true -> live u = true ->
  (forall r, In r db -> In (pk r) ids ->
     r = t \/ org r <> org t
     \/ (keyword r <> Some k /\ keyword r <> Some ku)) ->
  get_trigger (pk u) (snd (apply_action_restore ids db)) = Some u
  /\ get_trigger (pk t) (snd (apply_action_restore ids db))
     = Some (set_is_archived false t)
  /\ live (set_is_archived false t) = true
  /\ forall w kw,
       upper kw = upper k ->
       flow_usable w (flow t) = true -> flow_usable w (flow u) = true ->
       keyword_filter w (org t) kw u = true
       /\ keyword_filter w (org t) kw (set_is_archived false t) = true.
Proof.
  intros Hu Ht Hin_u Hids Htt Htu Ho Hk Hku Hdiff Hcase Hact Hlive Hsel.
  assert (Htu_ne : pk t <> pk u).
  { intros E. rewrite (unique_row db t u Hu Ht Hin_u E) in Hk. congruence. }
  assert (Hrem : In t (remaining_triggers ids db)).
  { apply remaining_triggers_In; auto; rewrite Htt; discriminate. }
  destruct (restore_loop_of_restore ids db Hu) as [Hu1 _].
  assert (Hu2 := restore_exclusive_unique MISSED_CALL_TRIGGER ids _ Hu1).
  (* what the loop does to the two rows *)
  assert (Hloop_u : get_trigger (pk u)
            (fold_left restore_one (remaining_triggers ids db) db) = Some u).
  { apply restore_loop_keeps_other_row; [|now apply In_get_trigger].
    intros x Hx. apply remaining_triggers_inv in Hx.
    destruct Hx as [Hx [Hxi _]].
    assert (Hq : forall kx, keyword x = Some kx ->
                   same_keyword_triggers x kx u = false).
    { intros kx Hkx. unfold same_keyword_triggers.
      destruct (Hsel x Hx Hxi) as [->|[Hox|[_ Hkx']]].
      - assert (kx = k) by congruence. subst kx.
        rewrite (keyword_is_false k u) by congruence.
        now rewrite andb_false_r.
      - assert (X : (org u =? org x) = false)
          by (apply Z.eqb_neq; congruence).
        now rewrite X.
      - assert (Y : keyword_is kx u = false).
        { apply keyword_is_false. congruence. }
        rewrite Y. now rewrite andb_false_r. }
    split; [|exact Hq].
    intros E. pose proof (unique_row db x u Hu Hx Hin_u E) as Exu. subst x.
    destruct (Hsel u Hin_u Hxi) as [E'|[Hox|[_ Hkx']]]; congruence. }
  assert (Hloop_t : get_trigger (pk t)
            (fold_left restore_one (remaining_triggers ids db) db)
          = Some (set_is_archived false t)).
  { apply restore_loop_restores; [|now left].
    intros x Hx. apply remaining_triggers_inv in Hx.
    destruct Hx as [Hx [Hxi _]].
    destruct (Hsel x Hx Hxi) as [->|Hother]; [now left|right].
    split.
    - intros E. pose proof (unique_row db x t Hu Hx Ht E) as Ext. subst x.
      destruct Hother as [Hox|[Hkx _]]; congruence.
    - intros kx Hkx. unfold same_keyword_triggers. simpl.
      destruct Hother as [Hox|[Hkx' _]].
      + assert (X : (org t =? org x) = false)
          by (apply Z.eqb_neq; congruence).
        now rewrite X.
      + assert (Y : keyword_is kx (set_is_archived false t) = false).
        { apply keyword_is_false. simpl. congruence. }
        rewrite Y. now rewrite andb_false_r. }
  unfold apply_action_restore. simpl.
  split; [|split; [|split]].
  - apply restore_exclusive_keeps_row; auto; [rewrite Htu; discriminate|].
    apply restore_exclusive_keeps_row; auto. rewrite Htu; discriminate.
  - apply (restore_exclusive_keeps_row CATCH_ALL_TRIGGER ids _
             (set_is_archived false t)); auto;
      [simpl; rewrite Htt; discriminate|].
    apply (restore_exclusive_keeps_row MISSED_CALL_TRIGGER ids _
             (set_is_archived false t)); auto.
    simpl; rewrite Htt; discriminate.
  - unfold live. simpl. now rewrite Hact.
  - intros w kw Hkw Hft Hfu. unfold live in Hlive.
    apply andb_prop in Hlive. destruct Hlive as [Hau Hnu].
    unfold keyword_filter, keyword_iexact. simpl.
    rewrite Hk, Hku, Hft, Hfu, Hact, Hau, Hnu, Ho, Hkw, <- Hcase.
    now rewrite Z.eqb_refl, String.eqb_refl.
Qed.

Lemma restore_keyword_case_sensitive_witness :
  get_trigger 2 (snd (apply_action_restore [7] case_db)) = Some join_new
  /\ get_trigger 7 (snd (apply_action_restore [7] case_db))
     = Some (set_is_archived false join_caps)
  /\ live (set_is_archived false join_caps) = true
  /\ forall w kw,
       upper kw = upper "JOIN" ->
       flow_usable w (Some 1) = true -> flow_usable w (Some 1) = true ->
       keyword_filter w 1 kw join_new = true
       /\ keyword_filter w 1 kw (set_is_archived false join_caps) = true.
Proof.
  apply (restore_keyword_case_sensitive [7] case_db join_caps join_new
           "JOIN" "join").
  - unfold unique_pks. simpl.
    repeat (constructor; [simpl; intuition discriminate|]). constructor.
  - simpl. auto.
  - simpl. auto.
  - simpl. auto.
  - reflexivity.
  - reflexivity.
  - reflexivity.
  - reflexivity.
  - reflexivity.
  - discriminate.
  - reflexivity.
  - reflexivity.
  - reflexivity.
  - intros r [<-|[<-|[]]] Hids.
    + now left.
    + simpl in Hids. destruct Hids as [E|[]]. discriminate.
Defined.

(** ** Keyword dispatch *)

Lemma find_and_handle_eq msg w :
  find_and_handle msg w =
  match keyword_match msg w with
  | None => (false, w)
  | Some trigger =>
      let w1 := set_triggers (save (stamp (msg_created_on msg) trigger)
                                   (triggers w)) w in
      match flow trigger with
      | Some f =>
          (true, log_start (mkFlowStart f [] [contact_pk (msg_contact msg)]
                                        (Some (msg_pk msg)) true) w1)
      | None => (true, w1)
      end
  end.
Proof.
  unfold find_and_handle, keyword_match.
  destruct (first_keyword (msg_text msg)) as [kw|]; [|reflexivity].
  destruct (ignoring_triggers w _); [reflexivity|].
  destruct (matching _ _ w) as [|trigger rest]; reflexivity.
Qed.

Lemma group_rows_In base ids w n t :
  In (n, t) (group_rows base ids w) <->
  In t (triggers w) /\ base t = true
  /\ exists g gr, In g (groups_of w (pk t)) /\ In g ids
                  /\ get_group g (contactgroups w) = Some gr
                  /\ group_name gr = n.
Proof.
  unfold group_rows. rewrite in_flat_map. split.
  - intros [t0 [Ht0 Hrow]]. apply filter_In in Ht0. destruct Ht0 as [Hin Hb].
    apply in_flat_map in Hrow. destruct Hrow as [g [Hg Hrow]].
    destruct (mem g ids) eqn:Hm; [|contradiction].
    destruct (get_group g (contactgroups w)) as [gr|] eqn:Hgr;
      [|contradiction].
    destruct Hrow as [E|[]]. injection E as En Et. subst t0.
    repeat split; auto. exists g, gr. repeat split; auto.
    now apply mem_In.
  - intros [Hin [Hb [g [gr [Hg [Hids [Hgr Hn]]]]]]].
    exists t. split; [apply filter_In; auto|].
    apply in_flat_map. exists g. split; [assumption|].
    apply mem_In in Hids. rewrite Hids, Hgr. left. now subst n.
Qed.

Lemma matching_groups_In base ids w t :
  In t (matching_groups base ids w) ->
  In t (triggers w) /\ base t = true /\ targets_group w ids t.
Proof.
  unfold matching_groups. intros H. apply in_map_iff in H.
  destruct H as [[n t'] [E Hrow]]. simpl in E. subst t'.
  apply order_by_In, group_rows_In in Hrow.
  destruct Hrow as [Hin [Hb [g [gr [Hg [Hids _]]]]]].
  repeat split; auto. exists g. auto.
Qed.

Lemma matching_no_group_In base w t :
  In t (matching_no_group base w) <->
  In t (triggers w) /\ base t = true /\ groups_of w (pk t) = [].
Proof.
  unfold matching_no_group. rewrite filter_In, andb_true_iff.
  destruct (groups_of w (pk t)); intuition discriminate.
Qed.

Lemma matching_In base ids w t :
  In t (matching base ids w) -> In t (triggers w) /\ base t = true.
Proof.
  unfold matching. destruct (matching_groups base ids w) as [|m ms] eqn:E.
  - intros H. apply matching_no_group_In in H. tauto.
  - rewrite <- E. intros H. apply matching_groups_In in H. tauto.
Qed.

Lemma keyword_match_inv msg w t :
  keyword_match msg w = Some t ->
  exists kw,
    first_keyword (msg_text msg) = Some kw
    /\ ignoring_triggers w (contact_pk (msg_contact msg)) = false
    /\ hd_error (matching (keyword_filter w (msg_org msg) kw)
                          (contact_groups (msg_contact msg)) w) = Some t.
Proof.
  unfold keyword_match. destruct (first_keyword _) as [kw|]; [|discriminate].
  destruct (ignoring_triggers w _); [discriminate|]. eauto.
Qed.

Lemma hd_error_In {A} (l : list A) x : hd_error l = Some x -> In x l.
Proof. destruct l; simpl; [discriminate|]. intros [= ->]. now left. Qed.

Lemma matching_head_sound base ids w t :
  hd_error (matching base ids w) = Some t ->
  In t (triggers w) /\ base t = true
  /\ (targets_group w ids t
      \/ (groups_of w (pk t) = []
          /\ forall t' g gr,
               In t' (triggers w) -> base t' = true ->
               In g (groups_of w (pk t')) -> In g ids ->
               get_group g (contactgroups w) = Some gr -> False)).
Proof.
  unfold matching. destruct (matching_groups base ids w) as [|m ms] eqn:E.
  - intros H. apply hd_error_In, matching_no_group_In in H.
    destruct H as [Hin [Hb Hg]]. split; [assumption|]. split; [assumption|].
    right. split; [assumption|]. intros t' g gr Hin' Hb' Hg' Hids Hgr.
    assert (X : In t' (matching_groups base ids w)).
    { unfold matching_groups. apply in_map_iff.
      exists (group_name gr, t'). split; [reflexivity|].
      apply order_by_In, group_rows_In. repeat split; auto.
      exists g, gr. auto. }
    rewrite E in X. contradiction.
  - simpl. intros [= <-].
    assert (X : In m (matching_groups base ids w)) by (rewrite E; now left).
    apply matching_groups_In in X. destruct X as [Hin [Hb Ht]]. auto.
Qed.

Lemma keyword_match_row msg w t :
  keyword_match msg w = Some t ->
  In t (triggers w) /\ exists f, flow t = Some f.
Proof.
  intros H. apply keyword_match_inv in H. destruct H as [kw [_ [_ H]]].
  apply hd_error_In, matching_In in H. destruct H as [Hin Hb].
  split; [assumption|]. unfold keyword_filter in Hb.
  apply andb_prop in Hb. destruct Hb as [_ Hf]. unfold flow_usable in Hf.
  destruct (flow t) as [f|]; [eauto | discriminate].
Qed.

(** C3: when the message has a keyword, the contact's run does not ignore
    triggers, and some trigger [tg] that passes the keyword filter targets
    one of the contact's groups, [find_and_handle] returns true and fires a
    trigger that targets one of the contact's groups -- the head of the
    first query -- and not a trigger of the second query (no groups): that
    trigger's row gets the fire counted and timed, and its flow is the one
    flow started, for the contact and with the message.  The second query
    decides only when the first one is empty. *)
Theorem group_trigger_beats_fallback msg w kw tg g gr :
  first_keyword (msg_text msg) = Some kw ->
  ignoring_triggers w (contact_pk (msg_contact msg)) = false ->
  In tg (triggers w) ->
  keyword_filter w (msg_org msg) kw tg = true ->
  In g (groups_of w (pk tg)) ->
  In g (contact_groups (msg_contact msg)) ->
  get_group g (contactgroups w) = Some gr ->
  exists fired,
    keyword_match msg w = Some fired
    /\ hd_error (matching_groups (keyword_filter w (msg_org msg) kw)
                                 (contact_groups (msg_contact msg)) w)
       = Some fired
    /\ targets_group w (contact_groups (msg_contact msg)) fired
    /\ ~ In fired (matching_no_group (keyword_filter w (msg_org msg) kw) w)
    /\ fst (find_and_handle msg w) = true
    /\ get_trigger (pk fired) (triggers (snd (find_and_handle msg w)))
       = Some (stamp (msg_created_on msg) fired)
    /\ (exists f r,
          flow fired = Some f
          /\ get_trigger (pk fired) (triggers (snd (find_and_handle msg w)))
             = Some r
          /\ trigger_count r = trigger_count fired + 1
          /\ last_triggered r = Some (msg_created_on msg)
          /\ started (snd (find_and_handle msg w))
             = started w
               ++ [mkFlowStart f [] [contact_pk (msg_contact msg)]
                               (Some (msg_pk msg)) true])
    /\ (forall base ids,
          matching base ids w = matching_no_group base w
          \/ (matching base ids w = matching_groups base ids w
              /\ matching_groups base ids w <> [])).
Proof.
  intros Hkw Hign Hin Hf Hg Hc Hgr.
  set (base := keyword_filter w (msg_org msg) kw).
  set (ids := contact_groups (msg_contact msg)).
  assert (Hrow : In (group_name gr, tg) (group_rows base ids w)).
  { apply group_rows_In. repeat split; auto. exists g, gr. auto. }
  assert (Hmg : In tg (matching_groups base ids w)).
  { unfold matching_groups. apply in_map_iff.
    exists (group_name gr, tg). split; [reflexivity|].
    now apply order_by_In. }
  destruct (matching_groups base ids w) as [|fired rest] eqn:E;
    [contradiction|].
  assert (Hfired : In fired (matching_groups base ids w))
    by (rewrite E; now left).
  apply matching_groups_In in Hfired. destruct Hfired as [Hfin [Hfb Hft]].
  assert (Hm : matching base ids w = fired :: rest)
    by (unfold matching; now rewrite E).
  assert (Hkm : keyword_match msg w = Some fired).
  { unfold keyword_match. rewrite Hkw, Hign. fold base ids. now rewrite Hm. }
  exists fired. split; [assumption|]. split; [reflexivity|].
  split; [assumption|]. split.
  { intros Hno. apply matching_no_group_In in Hno.
    destruct Hno as [_ [_ Hnil]]. destruct Hft as [g' [Hg' _]].
    rewrite Hnil in Hg'. contradiction. }
  rewrite find_and_handle_eq, Hkm.
  destruct (keyword_match_row msg w fired Hkm) as [_ [f Hflow]].
  rewrite Hflow. simpl. split; [reflexivity|]. split.
  { apply (get_trigger_save_same (stamp (msg_created_on msg) fired)). }
  split.
  { exists f, (stamp (msg_created_on msg) fired).
    split; [reflexivity|]. split.
    - apply (get_trigger_save_same (stamp (msg_created_on msg) fired)).
    - repeat split. }
  intros base' ids'. unfold matching.
  destruct (matching_groups base' ids' w); [now left|right].
  split; [reflexivity | discriminate].
Qed.

Example first_keyword_join :
  first_keyword "Join now" = Some "join"%string
  /\ first_keyword "JOIN!" = Some "join"%string
  /\ first_keyword "  join " = Some "join"%string
  /\ first_keyword "???" = None
  /\ first_keyword "" = None.
Proof. repeat split; reflexivity. Qed.

Lemma group_trigger_beats_fallback_witness :
  exists fired,
    keyword_match join_msg (sample_world [join_new; join_farmers] [])
    = Some fired
    /\ targets_group (sample_world [join_new; join_farmers] []) [100] fired
    /\ fst (find_and_handle join_msg
              (sample_world [join_new; join_farmers] [])) = true
    /\ exists f r,
         flow fired = Some f
         /\ get_trigger (pk fired)
              (triggers (snd (find_and_handle join_msg
                                (sample_world [join_new; join_farmers] []))))
            = Some r
         /\ trigger_count r = trigger_count fired + 1
         /\ last_triggered r = Some 50
         /\ started (snd (find_and_handle join_msg
                             (sample_world [join_new; join_farmers] [])))
            = [mkFlowStart f [] [9] (Some 500) true].
Proof.
  destruct (group_trigger_beats_fallback join_msg
              (sample_world [join_new; join_farmers] []) "join" join_farmers
              100 (mkContactGroup 100 1 "Farmers" true)
              eq_refl eq_refl (or_intror (or_introl eq_refl)) eq_refl
              (or_introl eq_refl) (or_introl eq_refl) eq_refl)
    as [fired [H1 [_ [H2 [_ [H3 [_ [H4 _]]]]]]]].
  exists fired. split; [exact H1|]. split; [exact H2|].
  split; [exact H3 | exact H4].
Defined.

(** ** The run that ignores triggers *)

Lemma run_before_total a b :
  run_before a b = true \/ run_before b a = true.
Proof.
  unfold run_before.
  destruct (Z.ltb_spec (run_created_on b) (run_created_on a)),
    (Z.ltb_spec (run_created_on a) (run_created_on b)),
    (Z.eqb_spec (run_created_on a) (run_created_on b)),
    (Z.eqb_spec (run_created_on b) (run_created_on a)),
    (Z.leb_spec (run_pk b) (run_pk a)),
    (Z.leb_spec (run_pk a) (run_pk b)); simpl; auto; lia.
Qed.

Lemma run_before_trans a b c :
  run_before a b = true -> run_before b c = true -> run_before a c = true.
Proof.
  unfold run_before.
  rewrite !orb_true_iff, !andb_true_iff, !Z.ltb_lt, !Z.eqb_eq, !Z.leb_le.
  lia.
Qed.

Lemma active_run_latest w contact r :
  latest_run w contact r -> active_run w contact = Some r.
Proof.
  intros [Hin [Hact [Hc [Hf Hlatest]]]]. unfold active_run.
  set (q := fun r0 => run_is_active r0 && (run_contact r0 =? contact)
                      && flow_usable w (Some (run_flow r0))).
  assert (Hq : In r (filter q (runs w))).
  { apply filter_In. split; [assumption|]. unfold q.
    rewrite Hact, Hf, Hc, Z.eqb_refl. reflexivity. }
  destruct (order_by run_before (filter q (runs w))) as [|h rest] eqn:E.
  - apply (order_by_In run_before) in Hq. rewrite E in Hq. contradiction.
  - simpl. f_equal.
    pose proof (order_by_head_least run_before run_before_total
                  run_before_trans _ _ _ E r Hq) as Hle.
    pose proof (order_by_head_In _ _ _ _ E) as Hh.
    apply filter_In in Hh. destruct Hh as [Hhin Hhq]. unfold q in Hhq.
    apply andb_prop in Hhq. destruct Hhq as [Hhq Hhf].
    apply andb_prop in Hhq. destruct Hhq as [Hha Hhc].
    apply Z.eqb_eq in Hhc.
    destruct (Hlatest h Hhin Hha Hhc Hhf) as [Eh|Hold]; [assumption|].
    unfold run_before in Hle.
    rewrite orb_true_iff, andb_true_iff, Z.ltb_lt, Z.eqb_eq, Z.leb_le in Hle.
    lia.
Qed.

(** C4, the claim as stated fails: contact 9 has an active, not completed
    run in flow 2, which ignores triggers, and a newer active run in flow 1;
    the message "Join now" fires the trigger "join". *)
Lemma newer_run_hides_ignore_triggers :
  ~ (forall msg w r fl,
       In r (runs w) -> run_is_active r = true ->
       run_contact r = contact_pk (msg_contact msg) ->
       run_completed r = false ->
       get_flow (run_flow r) (flows w) = Some fl ->
       flow_is_active fl = true -> flow_is_archived fl = false ->
       ignore_triggers fl = true ->
       fst (find_and_handle msg w) = false).
Proof.
  intros H.
  specialize (H join_msg (sample_world [join_new] [old_run; new_run]) old_run
                (mkFlow 2 1 true false true)
                (or_introl eq_refl) eq_refl eq_refl eq_refl eq_refl eq_refl
                eq_refl eq_refl).
  vm_compute in H. discriminate.
Qed.

(** C4, amended: when the contact's latest active run in a usable flow is
    not completed and its flow ignores triggers, [find_and_handle] returns
    false and changes nothing: no trigger is stamped and no flow is started.
    The answer is the same whatever the trigger table holds, since the runs
    are looked at before any trigger is. *)
Theorem ignore_triggers_suppresses msg w r fl :
  latest_run w (contact_pk (msg_contact msg)) r ->
  get_flow (run_flow r) (flows w) = Some fl ->
  ignore_triggers fl = true ->
  run_completed r = false ->
  find_and_handle msg w = (false, w)
  /\ keyword_match msg w = None
  /\ forall tbl,
       find_and_handle msg (set_triggers tbl w) = (false, set_triggers tbl w).
Proof.
  intros Hlatest Hfl Hign Hcomp.
  assert (Hi : forall tbl,
            ignoring_triggers (set_triggers tbl w)
                              (contact_pk (msg_contact msg)) = true).
  { intros tbl. unfold ignoring_triggers.
    assert (Hl : latest_run (set_triggers tbl w)
                            (contact_pk (msg_contact msg)) r)
      by exact Hlatest.
    rewrite (active_run_latest _ _ _ Hl). simpl. rewrite Hfl, Hign, Hcomp.
    reflexivity. }
  assert (Hf : forall tbl,
            find_and_handle msg (set_triggers tbl w)
            = (false, set_triggers tbl w)).
  { intros tbl. unfold find_and_handle.
    destruct (first_keyword (msg_text msg)); [|reflexivity].
    now rewrite Hi. }
  assert (Hw : set_triggers (triggers w) w = w) by now destruct w.
  split; [|split].
  - pose proof (Hf (triggers w)) as X. now rewrite Hw in X.
  - unfold keyword_match. destruct (first_keyword (msg_text msg));
      [|reflexivity].
    specialize (Hi (triggers w)). rewrite Hw in Hi. now rewrite Hi.
  - exact Hf.
Qed.

Lemma ignore_triggers_suppresses_witness :
  find_and_handle join_msg (sample_world [join_new] [old_run])
  = (false, sample_world [join_new] [old_run])
  /\ keyword_match join_msg (sample_world [join_new] [old_run]) = None
  /\ forall tbl,
       find_and_handle join_msg
         (set_triggers tbl (sample_world [join_new] [old_run]))
       = (false, set_triggers tbl (sample_world [join_new] [old_run])).
Proof.
  apply (ignore_triggers_suppresses join_msg
           (sample_world [join_new] [old_run]) old_run
           (mkFlow 2 1 true false true)).
  - unfold latest_run. simpl. repeat split; auto.
    intros r' [<-|[]] _ _ _. now left.
  - reflexivity.
  - reflexivity.
  - reflexivity.
Defined.

(** ** What a keyword fire writes *)

Lemma find_and_handle_fires msg w t :
  keyword_match msg w = Some t ->
  exists f,
    flow t = Some f
    /\ find_and_handle msg w
       = (true,
          log_start (mkFlowStart f [] [contact_pk (msg_contact msg)]
                                 (Some (msg_pk msg)) true)
            (set_triggers (save (stamp (msg_created_on msg) t) (triggers w))
                          w)).
Proof.
  intros H. destruct (keyword_match_row msg w t H) as [_ [f Hf]].
  exists f. split; [assumption|].
  now rewrite find_and_handle_eq, H, Hf.
Qed.

(** C5, the claim as stated fails: the message was created at 50 and is
    handled when the clock reads 100; the trigger's [last_triggered] becomes
    50, the message's [created_on], not the time of the dispatch. *)
Lemma keyword_fire_is_not_stamped_now :
  ~ (forall msg w t,
       keyword_match msg w = Some t ->
       exists r,
         get_trigger (pk t) (triggers (snd (find_and_handle msg w))) = Some r
         /\ last_triggered r = Some (clock w)).
Proof.
  intros H.
  destruct (H join_msg (sample_world [join_new] []) join_new eq_refl)
    as [r [Hr Hl]].
  vm_compute in Hr. injection Hr as <-. discriminate.
Qed.

(** C5, amended: on a keyword match [find_and_handle] writes the trigger
    back with [last_triggered] set to the message's [created_on] and
    [trigger_count] one higher, then starts the trigger's flow for the
    contact with the message and [restart_participants=True], and returns
    true.  Two messages in a row that match the same trigger leave its count
    two higher and its [last_triggered] at the second message's
    [created_on]. *)
Theorem keyword_fire_stamps msg w t :
  unique_pks (triggers w) ->
  keyword_match msg w = Some t ->
  exists f r,
    flow t = Some f
    /\ fst (find_and_handle msg w) = true
    /\ get_trigger (pk t) (triggers (snd (find_and_handle msg w))) = Some r
    /\ last_triggered r = Some (msg_created_on msg)
    /\ trigger_count r = trigger_count t + 1
    /\ get_trigger (pk t) (triggers w) = Some t
    /\ started (snd (find_and_handle msg w))
       = started w ++ [mkFlowStart f [] [contact_pk (msg_contact msg)]
                                   (Some (msg_pk msg)) true]
    /\ forall msg2 t2,
         keyword_match msg2 (snd (find_and_handle msg w)) = Some t2 ->
         pk t2 = pk t ->
         exists r2,
           get_trigger (pk t)
             (triggers (snd (find_and_handle msg2
                               (snd (find_and_handle msg w))))) = Some r2
           /\ trigger_count r2 = trigger_count t + 2
           /\ last_triggered r2 = Some (msg_created_on msg2).
Proof.
  intros Hu Hm. destruct (find_and_handle_fires msg w t Hm) as [f [Hf E]].
  destruct (keyword_match_row msg w t Hm) as [Hin _].
  exists f, (stamp (msg_created_on msg) t). rewrite E. simpl.
  assert (Hg : get_trigger (pk t)
                 (save (stamp (msg_created_on msg) t) (triggers w))
               = Some (stamp (msg_created_on msg) t))
    by apply (get_trigger_save_same (stamp (msg_created_on msg) t)).
  repeat (split; [first [assumption | reflexivity
                        | now apply In_get_trigger]|]).
  intros msg2 t2 Hm2 Hpk.
  destruct (find_and_handle_fires msg2 _ t2 Hm2) as [f2 [Hf2 E2]].
  destruct (keyword_match_row msg2 _ t2 Hm2) as [Hin2 _].
  simpl in Hin2.
  assert (Hu' : unique_pks (save (stamp (msg_created_on msg) t) (triggers w)))
    by now apply unique_pks_save.
  assert (Et2 : t2 = stamp (msg_created_on msg) t).
  { apply get_trigger_In in Hg. destruct Hg as [Hs _].
    apply (unique_row _ t2 _ Hu' Hin2 Hs). exact Hpk. }
  rewrite E2. simpl. exists (stamp (msg_created_on msg2) t2).
  split.
  - rewrite <- Hpk.
    apply (get_trigger_save_same (stamp (msg_created_on msg2) t2)).
  - subst t2. simpl. split; [lia | reflexivity].
Qed.

Lemma keyword_fire_stamps_witness :
  exists f r,
    flow join_new = Some f
    /\ fst (find_and_handle join_msg (sample_world [join_new] [])) = true
    /\ get_trigger 2
         (triggers (snd (find_and_handle join_msg
                           (sample_world [join_new] [])))) = Some r
    /\ last_triggered r = Some 50
    /\ trigger_count r = 1
    /\ exists r2,
         get_trigger 2
           (triggers
              (snd (find_and_handle join_msg
                      (snd (find_and_handle join_msg
                              (sample_world [join_new] [])))))) = Some r2
         /\ trigger_count r2 = 2
         /\ last_triggered r2 = Some 50.
Proof.
  assert (U : unique_pks (triggers (sample_world [join_new] []))).
  { unfold unique_pks. simpl. repeat constructor. simpl. tauto. }
  destruct (keyword_fire_stamps join_msg (sample_world [join_new] [])
              join_new U eq_refl)
    as [f [r [H1 [H2 [H3 [H4 [H5 [_ [_ H8]]]]]]]]].
  exists f, r. repeat (split; [assumption|]).
  exact (H8 join_msg (stamp 50 join_new) eq_refl eq_refl).
Defined.

(** ** Count and time are written together *)

Lemma save_stamp_once when t tbl :
  unique_pks tbl -> In t tbl ->
  fired_once when t tbl (save (stamp when t) tbl).
Proof.
  intros Hu Hin. split; [now apply In_get_trigger|]. split.
  - exists (stamp when t). split; [|split; reflexivity].
    apply (get_trigger_save_same (stamp when t)).
  - intros k Hk. apply get_trigger_save_other. simpl. congruence.
Qed.

Lemma start_each_triggers ts contact start_msg w :
  triggers (snd (start_each ts contact start_msg w)) = triggers w.
Proof.
  revert w. induction ts as [|t ts IH]; intros w; simpl; [reflexivity|].
  unfold start_flow_of. destruct (flow t) as [f|]; [|reflexivity].
  destruct (get_flow f (flows w)); [|reflexivity].
  now rewrite IH.
Qed.

Lemma catch_triggers_triggers entity ty channel_id w :
  triggers (snd (catch_triggers entity ty channel_id w)) = triggers w.
Proof.
  unfold catch_triggers.
  destruct (entity_target entity) as [[contact start_msg]|]; [|reflexivity].
  pose proof (start_each_triggers
                (caught_triggers (entity_org entity) ty channel_id (triggers w))
                contact start_msg w) as X.
  destruct (start_each _ contact start_msg w) as [[u|e] w']; exact X.
Qed.

(** ** Catching every trigger of a type *)

Lemma caught_triggers_In o ty channel_id tbl t :
  In t (caught_triggers o ty channel_id tbl) <->
  In t tbl /\ live_of_type ty o t = true
  /\ (truthy_id channel_id = true -> channel t = channel_id).
Proof.
  assert (Hty : In t (get_triggers_of_type o ty tbl) <->
                In t tbl /\ live_of_type ty o t = true).
  { unfold get_triggers_of_type, live_of_type, live. rewrite filter_In.
    destruct (org t =? o), (trigger_type_eqb (trigger_type t) ty),
      (is_active t), (is_archived t); simpl; intuition discriminate. }
  unfold caught_triggers. destruct (truthy_id channel_id) eqn:Hc.
  - rewrite filter_In, Hty. split.
    + intros [[Hin Hl] Hch]. repeat split; auto. intros _.
      unfold opt_Z_eqb in Hch.
      destruct (channel t) as [x|], channel_id as [y|]; try discriminate;
        try reflexivity.
      apply Z.eqb_eq in Hch. now subst.
    + intros [Hin [Hl Hch]]. repeat split; auto.
      rewrite (Hch eq_refl). unfold opt_Z_eqb.
      destruct channel_id as [y|]; [apply Z.eqb_refl | reflexivity].
  - rewrite Hty. intuition discriminate.
Qed.

Lemma start_each_all ts contact start_msg w :
  (forall t, In t ts ->
     exists f, flow t = Some f /\ get_flow f (flows w) <> None) ->
  exists w',
    start_each ts contact start_msg w = (Return tt, w')
    /\ started w' = started w ++ flat_map (start_record contact start_msg) ts
    /\ triggers w' = triggers w.
Proof.
  revert w. induction ts as [|t ts IH]; intros w Hall; simpl.
  - exists w. now rewrite app_nil_r.
  - destruct (Hall t (or_introl eq_refl)) as [f [Hf Hg]].
    unfold start_flow_of, start_record at 1. rewrite Hf.
    destruct (get_flow f (flows w)) as [fl|] eqn:Hfl; [|congruence].
    destruct (IH (log_start (mkFlowStart f [] [contact] start_msg true) w))
      as [w' [E [Hs Ht]]].
    { intros t' Ht'. apply Hall. now right. }
    exists w'. split; [assumption|]. split; [|assumption].
    rewrite Hs. simpl. now rewrite <- app_assoc.
Qed.

(** C6, the code diverges on [catch_triggers]: it fires every trigger it
    catches -- the flow of each is started for the contact -- and writes
    neither [trigger_count] nor [last_triggered]: the trigger table it
    leaves is the one it was given, so the row of a fired trigger is as it
    was.  The three other paths write the pair whenever they fire: when
    [find_and_handle] answers true, when [find_flow_for_inbound_call]
    answers a flow and when [fire] answers what the flow engine returned,
    the row of the fired trigger has its count one higher and its
    [last_triggered] set (to the message's [created_on], to the clock and to
    the clock), and every other row is as it was. *)
Theorem catch_triggers_fires_unstamped w :
  unique_pks (triggers w) ->
  (forall entity ty channel_id contact start_msg t,
      entity_target entity = Some (contact, start_msg) ->
      (forall t',
          In t' (caught_triggers (entity_org entity) ty channel_id
                                 (triggers w)) ->
          exists f, flow t' = Some f /\ get_flow f (flows w) <> None) ->
      In t (caught_triggers (entity_org entity) ty channel_id (triggers w)) ->
      fst (catch_triggers entity ty channel_id w) = Return true
      /\ started (snd (catch_triggers entity ty channel_id w))
         = started w
           ++ flat_map (start_record contact start_msg)
                (caught_triggers (entity_org entity) ty channel_id
                                 (triggers w))
      /\ (exists f,
            flow t = Some f
            /\ In (mkFlowStart f [] [contact] start_msg true)
                  (flat_map (start_record contact start_msg)
                     (caught_triggers (entity_org entity) ty channel_id
                                      (triggers w))))
      /\ triggers (snd (catch_triggers entity ty channel_id w)) = triggers w
      /\ get_trigger (pk t)
           (triggers (snd (catch_triggers entity ty channel_id w)))
         = Some t)
  /\ (forall msg,
        fst (find_and_handle msg w) = true ->
        exists t,
          fired_once (msg_created_on msg) t (triggers w)
            (triggers (snd (find_and_handle msg w))))
  /\ (forall contact f,
        fst (find_flow_for_inbound_call contact w) = Some f ->
        exists t,
          flow t = Some f
          /\ fired_once (clock w) t (triggers w)
               (triggers (snd (find_flow_for_inbound_call contact w))))
  /\ (forall self s,
        In self (triggers w) ->
        fst (fire self w) = Return (Started s) ->
        fired_once (clock w) self (triggers w)
          (triggers (snd (fire self w)))).
Proof.
  intros Hu. split; [|split; [|split]].
  - intros entity ty channel_id contact start_msg t Ht Hall Hin.
    destruct (start_each_all _ contact start_msg w Hall) as [w' [E [Hs Htr]]].
    unfold catch_triggers. rewrite Ht, E. simpl.
    split; [|split; [|split; [|split]]].
    + destruct (caught_triggers _ _ _ _); [contradiction | reflexivity].
    + exact Hs.
    + destruct (Hall t Hin) as [f [Hf _]]. exists f. split; [assumption|].
      apply in_flat_map. exists t. split; [assumption|].
      unfold start_record. rewrite Hf. now left.
    + exact Htr.
    + rewrite Htr. apply In_get_trigger; [assumption|].
      apply caught_triggers_In in Hin. tauto.
  - intros msg. rewrite find_and_handle_eq.
    destruct (keyword_match msg w) as [t|] eqn:Hm; [|discriminate].
    destruct (keyword_match_row msg w t Hm) as [Hin [f Hf]].
    rewrite Hf. simpl. intros _. exists t. now apply save_stamp_once.
  - intros contact f. unfold find_flow_for_inbound_call.
    destruct (matching _ _ w) as [|t rest] eqn:Hm; [discriminate|].
    simpl. intros Hf. exists t. split; [assumption|].
    apply save_stamp_once; [assumption|].
    assert (X : In t (matching (inbound_call_filter w (contact_org contact))
                               (contact_groups contact) w))
      by (rewrite Hm; now left).
    now apply matching_In in X.
  - intros self s Hin. unfold fire.
    destruct (is_archived self || negb (is_active self)); [discriminate|].
    destruct (flow self) as [f|]; [|discriminate].
    destruct (get_flow f (flows w)) as [fl|]; [|discriminate].
    destruct (filter _ (channels w)); [discriminate|].
    destruct (groups_of w (pk self)), (contacts_of w (pk self));
      simpl; first [discriminate | intros _; now apply save_stamp_once].
Qed.

Lemma catch_triggers_fires_unstamped_witness :
  fst (catch_triggers (ContactEntity (mkContact 30 2 [])) MISSED_CALL_TRIGGER
                      None (sample_world sample_db []))
  = Return true
  /\ started (snd (catch_triggers (ContactEntity (mkContact 30 2 []))
                     MISSED_CALL_TRIGGER None (sample_world sample_db [])))
     = [mkFlowStart 1 [] [30] None true; mkFlowStart 1 [] [30] None true]
  /\ get_trigger 5
       (triggers (snd (catch_triggers (ContactEntity (mkContact 30 2 []))
                         MISSED_CALL_TRIGGER None
                         (sample_world sample_db []))))
     = Some missed_c
  /\ trigger_count missed_c = 0 /\ last_triggered missed_c = None.
Proof.
  destruct (proj1 (catch_triggers_fires_unstamped
                     (sample_world sample_db []) sample_db_unique)
              (ContactEntity (mkContact 30 2 [])) MISSED_CALL_TRIGGER None
              30 None missed_c eq_refl)
    as [H1 [H2 [_ [_ H5]]]].
  - intros t [<-|[<-|[]]]; exists 1; (split; [reflexivity | discriminate]).
  - simpl. auto.
  - split; [exact H1|]. split; [exact H2|]. split; [exact H5|].
    split; reflexivity.
Defined.

(** C7, the claim as stated fails for inbound calls: organization 1 has two
    live inbound-call triggers, and [find_flow_for_inbound_call] starts the
    flow of neither (it stamps the first and returns its flow). *)
Lemma inbound_call_fires_one_trigger :
  ~ (forall contact w t,
       In t (triggers w) ->
       live_of_type INBOUND_CALL_TRIGGER (contact_org contact) t = true ->
       exists s,
         In s (started (snd (find_flow_for_inbound_call contact w)))
         /\ flow t = Some (fs_flow s)).
Proof.
  intros H.
  destruct (H farmer (sample_world [call_a; call_b] []) call_b
              (or_intror (or_introl eq_refl)) eq_refl) as [s [Hs _]].
  vm_compute in Hs. exact Hs.
Qed.

(** C7, amended: when every live trigger of the requested type of the
    entity's organization (of those on the given channel when a non-zero
    channel id is given) has a flow, [catch_triggers], given a message, a
    call or a contact, starts the flow of each of them, in table order, for
    the entity's contact, with no groups, the message as [start_msg] and
    [restart_participants=True]; it returns whether there was any, and
    leaves the trigger table as it is.  [find_flow_for_inbound_call] is no
    such dispatch: it starts no flow.  When it answers no flow the world is
    as it was; when it answers a flow, that is the flow of one live
    inbound-call trigger of the contact's organization -- one for a group of
    the contact, or one without groups when no trigger passing the same
    tests is for a group of the contact -- whose row has its count one
    higher and its [last_triggered] set to the clock, every other row being
    as it was. *)
Theorem catch_triggers_fires_all entity ty channel_id w contact start_msg :
  entity_target entity = Some (contact, start_msg) ->
  (forall t, In t (caught_triggers (entity_org entity) ty channel_id
                                   (triggers w)) ->
     exists f, flow t = Some f /\ get_flow f (flows w) <> None) ->
  exists w',
    catch_triggers entity ty channel_id w
    = (Return (match caught_triggers (entity_org entity) ty channel_id
                                     (triggers w) with
               | [] => false
               | _ => true
               end), w')
    /\ started w'
       = started w
         ++ flat_map (start_record contact start_msg)
              (caught_triggers (entity_org entity) ty channel_id (triggers w))
    /\ triggers w' = triggers w
    /\ (forall t,
          In t (triggers w) ->
          live_of_type ty (entity_org entity) t = true ->
          (truthy_id channel_id = true -> channel t = channel_id) ->
          exists f,
            flow t = Some f
            /\ In (mkFlowStart f [] [contact] start_msg true) (started w'))
    /\ (forall c,
          started (snd (find_flow_for_inbound_call c w)) = started w
          /\ (fst (find_flow_for_inbound_call c w) = None ->
              snd (find_flow_for_inbound_call c w) = w)
          /\ forall f,
               fst (find_flow_for_inbound_call c w) = Some f ->
               exists t r,
                 In t (triggers w)
                 /\ live_of_type INBOUND_CALL_TRIGGER (contact_org c) t = true
                 /\ flow t = Some f
                 /\ (targets_group w (contact_groups c) t
                     \/ (groups_of w (pk t) = []
                         /\ forall t' g gr,
                              In t' (triggers w) ->
                              inbound_call_filter w (contact_org c) t' = true ->
                              In g (groups_of w (pk t')) ->
                              In g (contact_groups c) ->
                              get_group g (contactgroups w) = Some gr ->
                              False))
                 /\ get_trigger (pk t)
                      (triggers (snd (find_flow_for_inbound_call c w)))
                    = Some r
                 /\ trigger_count r = trigger_count t + 1
                 /\ last_triggered r = Some (clock w)
                 /\ forall k,
                      k <> pk t ->
                      get_trigger k
                        (triggers (snd (find_flow_for_inbound_call c w)))
                      = get_trigger k (triggers w)).
Proof.
  intros Ht Hall.
  destruct (start_each_all _ contact start_msg w Hall) as [w' [E [Hs Htr]]].
  exists w'. unfold catch_triggers. rewrite Ht, E.
  split; [reflexivity|]. split; [assumption|]. split; [assumption|]. split.
  - intros t Hin Hl Hch.
    assert (Hc : In t (caught_triggers (entity_org entity) ty channel_id
                                       (triggers w)))
      by (apply caught_triggers_In; auto).
    destruct (Hall t Hc) as [f [Hf _]]. exists f. split; [assumption|].
    rewrite Hs. apply in_or_app. right. apply in_flat_map.
    exists t. split; [assumption|]. unfold start_record. rewrite Hf.
    now left.
  - intros c. unfold find_flow_for_inbound_call.
    destruct (matching (inbound_call_filter w (contact_org c))
                       (contact_groups c) w) as [|t rest] eqn:Em.
    { split; [reflexivity|]. split; [reflexivity | discriminate]. }
    assert (Hh : hd_error (matching (inbound_call_filter w (contact_org c))
                                    (contact_groups c) w) = Some t)
      by now rewrite Em.
    apply matching_head_sound in Hh. destruct Hh as [Hin [Hb Hg]].
    unfold inbound_call_filter in Hb.
    rewrite !andb_true_iff, negb_true_iff, Z.eqb_eq in Hb.
    destruct Hb as [[[[Ha Hact] Ho] Hty] Hfu].
    simpl. split; [reflexivity|]. split.
    { intros Hn. unfold flow_usable in Hfu. rewrite Hn in Hfu.
      discriminate. }
    intros f Hf. exists t, (stamp (clock w) t).
    split; [assumption|]. split.
    { unfold live_of_type, live. rewrite Ha, Hact, Hty, Ho, Z.eqb_refl.
      reflexivity. }
    split; [assumption|]. split; [assumption|]. split.
    { apply (get_trigger_save_same (stamp (clock w) t)). }
    split; [reflexivity|]. split; [reflexivity|].
    intros k Hk. apply get_trigger_save_other. simpl. congruence.
Qed.

Lemma catch_triggers_fires_all_witness :
  exists w',
    catch_triggers (ContactEntity (mkContact 30 2 [])) MISSED_CALL_TRIGGER
                   None (sample_world sample_db [])
    = (Return true, w')
    /\ started w' = [mkFlowStart 1 [] [30] None true;
                     mkFlowStart 1 [] [30] None true]
    /\ triggers w' = sample_db
    /\ started (snd (find_flow_for_inbound_call (mkContact 30 2 [])
                       (sample_world sample_db [])))
       = [].
Proof.
  destruct (catch_triggers_fires_all (ContactEntity (mkContact 30 2 []))
              MISSED_CALL_TRIGGER None (sample_world sample_db []) 30 None
              eq_refl)
    as [w' [H1 [H2 [H3 [_ H5]]]]].
  - intros t [<-|[<-|[]]]; exists 1; (split; [reflexivity | discriminate]).
  - exists w'. split; [exact H1|]. split; [exact H2|]. split; [exact H3|].
    exact (proj1 (H5 (mkContact 30 2 []))).
Defined.

(** ** Import *)

(** C8: when the document's version (0 when missing) is below
    [EARLIEST_IMPORT_VERSION], [import_triggers] raises the version error
    whatever entries the document holds, and the database is the one it was
    given: no trigger, group or join row is created or changed. *)
Theorem import_rejects_old_version earliest doc o site w :
  match ex_version doc with Some v => v | None => 0 end < earliest ->
  import_triggers earliest doc o site w
  = (Raise (ValueError_unknown_version
              match ex_version doc with Some v => v | None => 0 end), w)
  /\ forall entries,
       import_triggers earliest
         (mkExportedJson (ex_version doc) (ex_site doc) entries) o site w
       = import_triggers earliest doc o site w.
Proof.
  intros Hv. apply Z.ltb_lt in Hv. unfold import_triggers. simpl.
  rewrite Hv. split; [reflexivity|]. intros entries. reflexivity.
Qed.

Lemma import_rejects_old_version_witness :
  import_triggers 3
    (mkExportedJson (Some 2) None
       (Some [mkTriggerSpec KEYWORD_TRIGGER (Some "join"%string) 1 [] None]))
    1 None (sample_world [] [])
  = (Raise (ValueError_unknown_version 2), sample_world [] [])
  /\ forall entries,
       import_triggers 3 (mkExportedJson (Some 2) None entries) 1 None
                       (sample_world [] [])
       = import_triggers 3
           (mkExportedJson (Some 2) None
              (Some [mkTriggerSpec KEYWORD_TRIGGER (Some "join"%string) 1 []
                                   None]))
           1 None (sample_world [] []).
Proof.
  apply (import_rejects_old_version 3
           (mkExportedJson (Some 2) None
              (Some [mkTriggerSpec KEYWORD_TRIGGER (Some "join"%string) 1 []
                                   None]))
           1 None (sample_world [] [])).
  simpl. lia.
Defined.

(** A supported version is imported: the same document at version 3 creates
    the trigger. *)
Example import_supported_version :
  triggers (snd (import_triggers 3
                   (mkExportedJson (Some 3) None
                      (Some [mkTriggerSpec KEYWORD_TRIGGER
                                           (Some "join"%string) 1 [] None]))
                   1 None (sample_world [] [])))
  = [mkTrigger 1 1 (Some "join"%string) (Some 1) None 0 false None
               KEYWORD_TRIGGER None true 100].
Proof. reflexivity. Qed.

(** ** Firing by hand *)




(** A trigger with a group and a channel in its organization fires. *)
Example fire_fires :
  fst (fire join_farmers (sample_world [join_farmers] []))
  = Return (Started (mkFlowStart 1 [100] [] None true)).
Proof. reflexivity. Qed.

(** ** Worked examples *)

(** Restoring triggers 1, 3 and 4 of the sample table: "join" 1 displaces
    "join" 2, missed call 3 (fired last) wins over 4, organization 2 is left
    alone. *)
Example restore_sample :
  map (fun r => (pk r, is_archived r))
      (snd (apply_action_restore [1; 3; 4] sample_db))
  = [(1, false); (2, true); (3, false); (4, true); (5, false); (6, false)]
  /\ fst (apply_action_restore [1; 3; 4] sample_db) = [1; 3; 4].
Proof. split; reflexivity. Qed.

(** Importing a missed-call trigger un-archives the first one it finds and
    archives no other: organization 2 ends with two live missed-call
    triggers. *)
Example import_leaves_two_missed_calls :
  let w :=
    mkWorld [sample_trigger 5 2 MISSED_CALL_TRIGGER None true None; missed_d]
            [] [] [mkFlow 3 2 true false false] [] [] [] 100 [] in
  let doc :=
    mkExportedJson (Some 3) None
      (Some [mkTriggerSpec MISSED_CALL_TRIGGER None 3 [] None]) in
  count (live_of_type MISSED_CALL_TRIGGER 2) (triggers w) = 1%nat
  /\ fst (import_triggers 3 doc 2 None w) = Return tt
  /\ count (live_of_type MISSED_CALL_TRIGGER 2)
           (triggers (snd (import_triggers 3 doc 2 None w))) = 2%nat.
Proof. repeat split; reflexivity. Qed.

(** A never-fired missed-call trigger sorts before one that fired. *)
Example restore_never_fired_first :
  order_by restore_before
    [missed_a; sample_trigger 8 1 MISSED_CALL_TRIGGER None true None]
  = [sample_trigger 8 1 MISSED_CALL_TRIGGER None true None; missed_a].
Proof. reflexivity. Qed.

(** * Further properties of archive and restore *)

Lemma restore_modulo ids db :
  unique_pks db ->
  unique_pks (snd (apply_action_restore ids db))
  /\ map (set_is_archived false) (snd (apply_action_restore ids db))
     = map (set_is_archived false) db.
Proof.
  intros Hu. unfold apply_action_restore. simpl.
  destruct (restore_loop_of_restore ids db Hu) as [Hu1 Hm1].
  pose proof (restore_exclusive_unique MISSED_CALL_TRIGGER ids _ Hu1) as Hu2.
  pose proof (restore_exclusive_modulo MISSED_CALL_TRIGGER ids db _ Hu Hm1)
    as Hm2.
  split.
  - now apply restore_exclusive_unique.
  - now apply restore_exclusive_modulo.
Qed.

Lemma selected_pks ids (l : list Trigger) :
  map pk (filter (fun r => mem (pk r) ids) l)
  = filter (fun k => mem k ids) (map pk l).
Proof.
  induction l as [|a l IH]; simpl; [reflexivity|].
  destruct (mem (pk a) ids); simpl; now rewrite IH.
Qed.

(** X1: [apply_action_archive] leaves every selected trigger archived, leaves
    the rows of all other keys as they were, answers the keys of the selected
    rows in table order, and cannot break exclusivity: a condition that no
    archived row satisfies is satisfied by no more rows than before. *)
Theorem archive_archives_selected ids db :
  (forall r, In r (snd (apply_action_archive ids db)) -> In (pk r) ids ->
     is_archived r = true)
  /\ (forall k, ~ In k ids ->
        get_trigger k (snd (apply_action_archive ids db)) = get_trigger k db)
  /\ (forall P, (forall r, P (set_is_archived true r) = false) ->
        (count P (snd (apply_action_archive ids db)) <= count P db)%nat)
  /\ fst (apply_action_archive ids db)
     = map pk (filter (fun r => mem (pk r) ids) db).
Proof.
  unfold apply_action_archive. simpl. split; [|split; [|split]].
  - intros r Hr Hids. unfold update_is_archived in Hr.
    apply in_map_iff in Hr. destruct Hr as [r0 [E _]].
    destruct (mem (pk r0) ids) eqn:Hm; subst r; [reflexivity|].
    apply mem_In in Hids. congruence.
  - intros k Hk. rewrite get_trigger_update.
    destruct (get_trigger k db) as [r|] eqn:Hg; [|reflexivity]. simpl.
    apply get_trigger_In in Hg. destruct Hg as [_ Hpk].
    destruct (mem (pk r) ids) eqn:Hm; [|reflexivity].
    apply mem_In in Hm. subst k. contradiction.
  - intros P HP. now apply count_update_archive.
  - rewrite !selected_pks, map_pk_update. reflexivity.
Qed.

Lemma restore_single_row t db :
  unique_pks db -> In t db ->
  get_trigger (pk t) (snd (apply_action_restore [pk t] db))
  = Some (set_is_archived false t).
Proof.
  intros Hu Hin.
  assert (Honly : forall x, In x db -> In (pk x) [pk t] -> x = t).
  { intros x Hx [E|[]]. symmetry in E. now apply (unique_row db x t Hu). }
  assert (Hblock : forall ty, trigger_type t = ty ->
            ty = MISSED_CALL_TRIGGER \/ ty = CATCH_ALL_TRIGGER ->
            get_trigger (pk t) (snd (apply_action_restore [pk t] db))
            = Some (set_is_archived false t)).
  { intros ty Ht Hty.
    assert (Hs : In t (selected_of_type ty [pk t] db))
      by (apply selected_of_type_In; simpl; auto).
    destruct (order_by restore_before (selected_of_type ty [pk t] db))
      as [|first rest] eqn:E.
    { apply (order_by_In restore_before) in Hs. rewrite E in Hs.
      contradiction. }
    pose proof (order_by_head_In _ _ _ _ E) as Hf.
    apply selected_of_type_In in Hf. destruct Hf as [Hfin [Hfids _]].
    pose proof (Honly first Hfin Hfids) as Ef. subst first.
    exact (proj2 (restore_winner ty [pk t] db t rest Hu Hty E)). }
  assert (Hloop : trigger_type t <> MISSED_CALL_TRIGGER ->
                  trigger_type t <> CATCH_ALL_TRIGGER ->
            get_trigger (pk t) (snd (apply_action_restore [pk t] db))
            = Some (set_is_archived false t)).
  { intros Hm Hc. unfold apply_action_restore. simpl.
    destruct (restore_loop_of_restore [pk t] db Hu) as [Hu1 _].
    pose proof (restore_exclusive_unique MISSED_CALL_TRIGGER [pk t] _ Hu1)
      as Hu2.
    assert (Hl : get_trigger (pk t)
                   (fold_left restore_one (remaining_triggers [pk t] db) db)
                 = Some (set_is_archived false t)).
    { apply restore_loop_restores.
      - intros x Hx. left. apply remaining_triggers_inv in Hx.
        destruct Hx as [Hx [Hxi _]]. now apply Honly.
      - left. apply remaining_triggers_In; simpl; auto. }
    exact (restore_exclusive_keeps_row CATCH_ALL_TRIGGER [pk t] _
             (set_is_archived false t) Hu2 Hc
             (restore_exclusive_keeps_row MISSED_CALL_TRIGGER [pk t] _
                (set_is_archived false t) Hu1 Hm Hl)). }
  destruct (trigger_type t) eqn:Ht;
    first [apply (Hblock _ eq_refl); auto; fail
          | apply Hloop; discriminate].
Qed.

(** X2: restoring a single trigger, whatever its type, leaves its row
    non-archived and, [modified_on] apart, otherwise as it was. *)
Theorem restore_single t db :
  unique_pks db -> In t db ->
  exists r,
    get_trigger (pk t) (snd (apply_action_restore [pk t] db)) = Some r
    /\ is_archived r = false
    /\ same_but_modified_on r (set_is_archived false t).
Proof.
  intros Hu Hin. exists (set_is_archived false t).
  split; [now apply restore_single_row|]. split; reflexivity.
Qed.

Lemma restore_single_witness :
  exists r,
    get_trigger 1 (snd (apply_action_restore [1] sample_db)) = Some r
    /\ is_archived r = false
    /\ same_but_modified_on r (set_is_archived false join_old).
Proof.
  apply (restore_single join_old sample_db sample_db_unique).
  simpl. auto.
Defined.

(** X3: [apply_action_restore] changes no column but [is_archived] and
    [modified_on], adds and removes no row, keeps the keys unique, and
    answers the keys of all the selected triggers, restored or not -- the
    same keys [apply_action_archive] answers. *)
Theorem restore_changes_only_is_archived ids db :
  unique_pks db ->
  map (fun r => set_modified_on 0 (set_is_archived false r))
      (snd (apply_action_restore ids db))
  = map (fun r => set_modified_on 0 (set_is_archived false r)) db
  /\ unique_pks (snd (apply_action_restore ids db))
  /\ fst (apply_action_restore ids db)
     = map pk (filter (fun r => mem (pk r) ids) db)
  /\ fst (apply_action_restore ids db) = fst (apply_action_archive ids db).
Proof.
  intros Hu. destruct (restore_modulo ids db Hu) as [Hu' Hm].
  assert (Hf : fst (apply_action_restore ids db)
               = map pk (filter (fun r => mem (pk r) ids) db)).
  { change (fst (apply_action_restore ids db))
      with (map pk (filter (fun r => mem (pk r) ids)
                           (snd (apply_action_restore ids db)))).
    rewrite !selected_pks. now rewrite (map_pk_modulo _ _ Hm). }
  split; [|repeat split; try assumption].
  - rewrite <- !(map_map (set_is_archived false) (set_modified_on 0)).
    now rewrite Hm.
  - rewrite Hf. unfold apply_action_archive. simpl.
    now rewrite !selected_pks, map_pk_update.
Qed.

Lemma restore_changes_only_is_archived_witness :
  map (fun r => set_modified_on 0 (set_is_archived false r))
      (snd (apply_action_restore [1; 3; 4] sample_db))
  = map (fun r => set_modified_on 0 (set_is_archived false r)) sample_db
  /\ unique_pks (snd (apply_action_restore [1; 3; 4] sample_db))
  /\ fst (apply_action_restore [1; 3; 4] sample_db)
     = map pk (filter (fun r => mem (pk r) [1; 3; 4]) sample_db)
  /\ fst (apply_action_restore [1; 3; 4] sample_db)
     = fst (apply_action_archive [1; 3; 4] sample_db).
Proof.
  exact (restore_changes_only_is_archived [1; 3; 4] sample_db
           sample_db_unique).
Defined.

(** ** What restore does to the triggers it was not given *)

Section Unselected.
Variable b : Trigger.

Lemma kept_or_archived_update q dbx :
  kept_or_archived b dbx -> kept_or_archived b (update_is_archived q true dbx).
Proof.
  unfold kept_or_archived. rewrite get_trigger_update.
  intros [-> | ->]; simpl.
  - destruct (q b); auto.
  - right. now destruct (q (set_is_archived true b)).
Qed.

Lemma kept_or_archived_save t dbx :
  pk t <> pk b -> kept_or_archived b dbx -> kept_or_archived b (save t dbx).
Proof.
  unfold kept_or_archived. intros Hne.
  now rewrite get_trigger_save_other.
Qed.

Lemma kept_or_archived_restore_one t dbx :
  pk t <> pk b -> kept_or_archived b dbx -> kept_or_archived b (restore_one dbx t).
Proof.
  intros Hne H. unfold restore_one.
  apply kept_or_archived_save; [exact Hne|].
  destruct (keyword t) as [k|]; [|assumption].
  destruct (nonempty k); [|assumption].
  unfold displaced. destruct (existsb _ dbx); [|assumption].
  now apply kept_or_archived_update.
Qed.

Lemma kept_or_archived_loop l dbx :
  (forall t, In t l -> pk t <> pk b) ->
  kept_or_archived b dbx -> kept_or_archived b (fold_left restore_one l dbx).
Proof.
  revert dbx. induction l as [|t l IH]; simpl; intros dbx Hl H; [assumption|].
  apply IH; [intros; apply Hl; auto|].
  apply kept_or_archived_restore_one; auto.
Qed.

Lemma kept_or_archived_block ty ids dbx :
  ~ In (pk b) ids ->
  kept_or_archived b dbx -> kept_or_archived b (restore_exclusive ty ids dbx).
Proof.
  intros Hb H. unfold restore_exclusive.
  destruct (order_by _ _) as [|first rest] eqn:E; [assumption|].
  apply order_by_head_In, selected_of_type_In in E.
  destruct E as [_ [Hids _]].
  apply kept_or_archived_save; [simpl; congruence|].
  now apply kept_or_archived_update.
Qed.

(** X4: a trigger that is not among those given to
    [apply_action_restore] is never restored or altered by it: its row ends
    as it was, or archived; so an archived one ends as it was. *)
Theorem restore_spares_unselected ids db :
  unique_pks db -> In b db -> ~ In (pk b) ids ->
  (get_trigger (pk b) (snd (apply_action_restore ids db)) = Some b
   \/ get_trigger (pk b) (snd (apply_action_restore ids db))
      = Some (set_is_archived true b))
  /\ (is_archived b = true ->
      get_trigger (pk b) (snd (apply_action_restore ids db)) = Some b).
Proof.
  intros Hu Hin Hb.
  assert (H : kept_or_archived b (snd (apply_action_restore ids db))).
  { unfold apply_action_restore. simpl.
    apply kept_or_archived_block; [assumption|].
    apply kept_or_archived_block; [assumption|].
    apply kept_or_archived_loop.
    - intros t Ht E. apply remaining_triggers_inv in Ht.
      destruct Ht as [_ [Hids _]]. rewrite E in Hids. contradiction.
    - left. now apply In_get_trigger. }
  split; [exact H|]. intros Ha.
  destruct H as [H|H]; [assumption|].
  rewrite H. now rewrite <- Ha, set_is_archived_same.
Qed.

(** X5: [apply_action_restore] is scoped by organization: a trigger of an
    organization none of whose triggers is among those given ends exactly
    as it was. *)
Theorem restore_spares_other_orgs ids db :
  unique_pks db -> In b db ->
  (forall r, In r db -> In (pk r) ids -> org r <> org b) ->
  get_trigger (pk b) (snd (apply_action_restore ids db)) = Some b.
Proof.
  intros Hu Hin Horg.
  assert (Hsel : forall dbx r,
            map (set_is_archived false) dbx = map (set_is_archived false) db ->
            In r dbx -> In (pk r) ids -> org r <> org b /\ pk r <> pk b).
  { intros dbx r Hm Hr Hids.
    destruct (modulo_In _ _ _ Hm Hr) as [r0 [Hr0 E]].
    assert (Epk : pk r0 = pk r)
      by (change (pk (set_is_archived false r0)
                  = pk (set_is_archived false r)); now rewrite E).
    assert (Eorg : org r0 = org r)
      by (change (org (set_is_archived false r0)
                  = org (set_is_archived false r)); now rewrite E).
    rewrite <- Epk in Hids. pose proof (Horg r0 Hr0 Hids) as Ho.
    split; [congruence|]. intros Hp.
    rewrite (unique_row db r0 b Hu Hr0 Hin) in Ho by congruence.
    contradiction. }
  assert (Hblock : forall ty dbx,
            map (set_is_archived false) dbx = map (set_is_archived false) db ->
            get_trigger (pk b) dbx = Some b ->
            get_trigger (pk b) (restore_exclusive ty ids dbx) = Some b).
  { intros ty dbx Hm Hg. unfold restore_exclusive.
    destruct (order_by _ _) as [|first rest] eqn:E; [assumption|].
    apply order_by_head_In, selected_of_type_In in E.
    destruct E as [Hf [Hids _]].
    destruct (Hsel dbx first Hm Hf Hids) as [Ho Hp].
    rewrite get_trigger_save_other by (simpl; exact Hp).
    rewrite get_trigger_update, Hg. simpl.
    assert (X : (org b =? org first) = false)
      by (apply Z.eqb_neq; congruence).
    now rewrite X. }
  destruct (restore_loop_of_restore ids db Hu) as [Hu1 Hm1].
  pose proof (restore_exclusive_modulo MISSED_CALL_TRIGGER ids db _ Hu Hm1)
    as Hm2.
  unfold apply_action_restore. simpl.
  apply Hblock; [assumption|]. apply Hblock; [assumption|].
  apply restore_loop_keeps_other_row; [|now apply In_get_trigger].
  intros x Hx. apply remaining_triggers_inv in Hx.
  destruct Hx as [Hx [Hids _]].
  destruct (Hsel db x eq_refl Hx Hids) as [Ho Hp].
  split; [exact Hp|]. intros kx _. unfold same_keyword_triggers.
  assert (X : (org b =? org x) = false) by (apply Z.eqb_neq; congruence).
  now rewrite X.
Qed.
End Unselected.

Lemma restore_spares_unselected_witness :
  (get_trigger 2 (snd (apply_action_restore [1] sample_db)) = Some join_new
   \/ get_trigger 2 (snd (apply_action_restore [1] sample_db))
      = Some (set_is_archived true join_new))
  /\ (is_archived join_new = true ->
      get_trigger 2 (snd (apply_action_restore [1] sample_db))
      = Some join_new).
Proof.
  apply (restore_spares_unselected join_new [1] sample_db sample_db_unique).
  - simpl. auto.
  - simpl. intros [E|[]]. discriminate.
Defined.

Lemma restore_spares_other_orgs_witness :
  get_trigger 5 (snd (apply_action_restore [1; 3; 4] sample_db))
  = Some missed_c.
Proof.
  apply (restore_spares_other_orgs missed_c [1; 3; 4] sample_db
           sample_db_unique).
  - simpl. auto 10.
  - intros r Hr Hids. simpl in Hr, Hids.
    destruct Hr as [<-|[<-|[<-|[<-|[<-|[<-|[]]]]]]]; simpl in *;
      try discriminate; intuition discriminate.
Defined.

(** * Further properties of keyword dispatch *)

(** ** The first word of a message *)

Lemma lower_char_word c : is_word (lower_char c) = is_word c.
Proof. destruct c as [[] [] [] [] [] [] [] []]; reflexivity. Qed.

Lemma lower_char_twice c : lower_char (lower_char c) = lower_char c.
Proof. destruct c as [[] [] [] [] [] [] [] []]; reflexivity. Qed.

Lemma upper_lower_char c : upper_char (lower_char c) = upper_char c.
Proof. destruct c as [[] [] [] [] [] [] [] []]; reflexivity. Qed.

Lemma space_is_no_word c : is_space c = true -> is_word c = false.
Proof.
  destruct c as [[] [] [] [] [] [] [] []]; vm_compute; intros H;
    first [reflexivity | discriminate].
Qed.

Lemma all_chars_app p s1 s2 :
  all_chars p (s1 ++ s2) = all_chars p s1 && all_chars p s2.
Proof.
  induction s1 as [|c s1 IH]; simpl; [reflexivity|].
  now rewrite IH, andb_assoc.
Qed.

Lemma all_chars_lower s :
  all_chars is_word (lower s) = all_chars is_word s.
Proof.
  induction s as [|c s IH]; simpl; [reflexivity|].
  now rewrite lower_char_word, IH.
Qed.

Lemma lower_twice s : lower (lower s) = lower s.
Proof.
  induction s as [|c s IH]; simpl; [reflexivity|].
  now rewrite lower_char_twice, IH.
Qed.

Lemma upper_lower s : upper (lower s) = upper s.
Proof.
  induction s as [|c s IH]; simpl; [reflexivity|].
  now rewrite upper_lower_char, IH.
Qed.

Lemma nonempty_lower s : nonempty (lower s) = nonempty s.
Proof. now destruct s. Qed.

Lemma re_split_from_words s cur in_sep :
  all_chars is_word cur = true ->
  Forall (fun w => all_chars is_word w = true) (re_split_from s cur in_sep).
Proof.
  revert cur in_sep. induction s as [|c s IH]; simpl; intros cur in_sep Hc.
  - constructor; [assumption | constructor].
  - destruct (is_word c) eqn:Hw.
    + apply IH. rewrite all_chars_app, Hc. simpl. now rewrite Hw.
    + destruct in_sep; [now apply IH|].
      constructor; [assumption | now apply IH].
Qed.

Lemma drop_empty_head words w rest :
  drop_empty words = w :: rest -> nonempty w = true /\ In w words.
Proof.
  induction words as [|x words IH]; simpl; [discriminate|].
  destruct (nonempty x) eqn:Hx.
  - intros [= <- _]. auto.
  - intros H. destruct (IH H). auto.
Qed.

(** X6: the keyword [find_and_handle] reads off an ASCII text, when there
    is one, is not empty, is made of letters, digits and underscores only,
    and is already in lower case. *)
Theorem first_keyword_shape text k :
  ascii_text text ->
  first_keyword text = Some k ->
  k <> EmptyString /\ all_chars is_word k = true /\ lower k = k.
Proof.
  intros _. unfold first_keyword.
  destruct (drop_empty (re_split (strip text))) as [|word rest] eqn:E;
    [discriminate|].
  destruct (drop_empty_head _ _ _ E) as [Hne Hin].
  rewrite nonempty_lower, Hne. intros [= <-].
  split; [|split].
  - destruct word; [discriminate | simpl; discriminate].
  - rewrite all_chars_lower.
    pose proof (re_split_from_words (strip text) EmptyString false eq_refl)
      as Hall.
    rewrite Forall_forall in Hall. now apply Hall.
  - apply lower_twice.
Qed.

Lemma first_keyword_shape_witness :
  ("join"%string <> EmptyString)
  /\ all_chars is_word "join" = true /\ lower "join" = "join"%string.
Proof.
  apply (first_keyword_shape "  Join, now!" "join"); reflexivity.
Defined.

Lemma any_char_rev p s acc :
  any_char p (rev_string s acc) = any_char p s || any_char p acc.
Proof.
  revert acc. induction s as [|c s IH]; intros acc; simpl; [reflexivity|].
  rewrite IH. simpl. destruct (p c), (any_char p s), (any_char p acc);
    reflexivity.
Qed.

Lemma any_word_lstrip s : any_char is_word (lstrip s) = any_char is_word s.
Proof.
  induction s as [|c s IH]; simpl; [reflexivity|].
  destruct (is_space c) eqn:Hs; [|reflexivity].
  now rewrite (space_is_no_word c Hs), IH.
Qed.

Lemma any_word_strip s : any_char is_word (strip s) = any_char is_word s.
Proof.
  unfold strip.
  rewrite any_char_rev, any_word_lstrip, any_char_rev, any_word_lstrip.
  simpl. now rewrite !orb_false_r.
Qed.

Lemma re_split_no_word s in_sep :
  any_char is_word s = false ->
  drop_empty (re_split_from s EmptyString in_sep) = [].
Proof.
  revert in_sep. induction s as [|c s IH]; simpl; intros in_sep H;
    [reflexivity|].
  apply orb_false_elim in H. destruct H as [Hc Hs]. rewrite Hc.
  destruct in_sep; simpl; now apply IH.
Qed.

Lemma re_split_some_word s cur in_sep :
  any_char is_word s = true \/ nonempty cur = true ->
  drop_empty (re_split_from s cur in_sep) <> [].
Proof.
  revert cur in_sep. induction s as [|c s IH]; simpl; intros cur in_sep H.
  - destruct H as [H|H]; [discriminate|]. now rewrite H.
  - destruct (is_word c) eqn:Hw.
    + apply IH. right. destruct cur; reflexivity.
    + simpl in H. destruct in_sep; [now apply IH|].
      simpl. destruct (nonempty cur) eqn:Hc; [discriminate|].
      apply IH. destruct H as [H|H]; [now left | discriminate].
Qed.

(** X7: an ASCII text has no keyword exactly when it holds no letter, digit
    or underscore; [find_and_handle] then answers false and leaves
    everything as it is, whatever the triggers and runs are. *)
Theorem no_word_no_dispatch text :
  ascii_text text ->
  (first_keyword text = None <-> any_char is_word text = false)
  /\ forall msg w,
       msg_text msg = text -> any_char is_word text = false ->
       find_and_handle msg w = (false, w).
Proof.
  intros _.
  assert (H : first_keyword text = None <-> any_char is_word text = false).
  { unfold first_keyword, re_split. split.
    - intros Hn. destruct (any_char is_word text) eqn:Ha; [|reflexivity].
      pose proof (re_split_some_word (strip text) EmptyString false) as X.
      rewrite any_word_strip, Ha in X. specialize (X (or_introl eq_refl)).
      destruct (drop_empty _) as [|word rest] eqn:E; [contradiction|].
      destruct (drop_empty_head _ _ _ E) as [Hne _].
      rewrite nonempty_lower, Hne in Hn. discriminate.
    - intros Ha. rewrite re_split_no_word; [reflexivity|].
      now rewrite any_word_strip. }
  split; [exact H|]. intros msg w Ht Ha. unfold find_and_handle.
  rewrite Ht. now rewrite (proj2 H Ha).
Qed.

Example no_word_examples :
  find_and_handle (mkMsg 1 1 farmer "???" 5) (sample_world [join_new] [])
  = (false, sample_world [join_new] [])
  /\ find_and_handle (mkMsg 1 1 farmer "" 5) (sample_world [join_new] [])
     = (false, sample_world [join_new] []).
Proof. split; reflexivity. Qed.

Lemma archive_archives_selected_witness :
  (forall r, In r (snd (apply_action_archive [2] sample_db)) ->
     In (pk r) [2] -> is_archived r = true)
  /\ get_trigger 5 (snd (apply_action_archive [2] sample_db))
     = get_trigger 5 sample_db
  /\ (at_most_one (live_keyword 1 "join") sample_db ->
      at_most_one (live_keyword 1 "join")
                  (snd (apply_action_archive [2] sample_db))).
Proof.
  destruct (archive_archives_selected [2] sample_db) as [H1 [H2 [H3 _]]].
  split; [exact H1|]. split.
  - apply H2. simpl. intros [E|[]]. discriminate.
  - unfold at_most_one. intros Hc.
    eapply Nat.le_trans; [|exact Hc].
    apply H3. intros r. apply live_keyword_archived.
Defined.

Lemma no_word_no_dispatch_witness :
  (first_keyword "?!" = None <-> any_char is_word "?!" = false)
  /\ find_and_handle (mkMsg 1 1 farmer "?!" 5) (sample_world [join_new] [])
     = (false, sample_world [join_new] []).
Proof.
  destruct (no_word_no_dispatch "?!" eq_refl) as [H1 H2].
  split; [exact H1|].
  exact (H2 (mkMsg 1 1 farmer "?!" 5) (sample_world [join_new] [])
            eq_refl eq_refl).
Defined.

(** ** Which trigger a dispatch may pick *)

Lemma keyword_iexact_inv kw t :
  keyword_iexact kw t = true ->
  exists k, keyword t = Some k /\ upper k = upper kw.
Proof.
  unfold keyword_iexact. destruct (keyword t) as [k|]; [|discriminate].
  intros H. apply String.eqb_eq in H. eauto.
Qed.

(** X8: the trigger a keyword dispatch fires is a row of the table that is
    active and not archived, belongs to the message's organization, has a
    flow that is active and not archived, and has a keyword equal to the
    message's first word up to letter case; it targets one of the contact's
    groups, or it has no group at all and then no trigger passing the same
    tests targets a group of the contact.  The trigger's type is not among
    the tests. *)
Theorem keyword_match_sound msg w t :
  keyword_match msg w = Some t ->
  In t (triggers w) /\ is_archived t = false /\ is_active t = true
  /\ org t = msg_org msg /\ flow_usable w (flow t) = true
  /\ exists kw k,
       first_keyword (msg_text msg) = Some kw
       /\ keyword t = Some k /\ upper k = upper kw
       /\ (targets_group w (contact_groups (msg_contact msg)) t
           \/ (groups_of w (pk t) = []
               /\ forall t' g gr,
                    In t' (triggers w) ->
                    keyword_filter w (msg_org msg) kw t' = true ->
                    In g (groups_of w (pk t')) ->
                    In g (contact_groups (msg_contact msg)) ->
                    get_group g (contactgroups w) = Some gr -> False)).
Proof.
  intros H. apply keyword_match_inv in H. destruct H as [kw [Hkw [_ Hh]]].
  apply matching_head_sound in Hh. destruct Hh as [Hin [Hb Hg]].
  unfold keyword_filter in Hb.
  rewrite !andb_true_iff, negb_true_iff, Z.eqb_eq in Hb.
  destruct Hb as [[[[Ha Hact] Ho] Hk] Hf].
  destruct (keyword_iexact_inv kw t Hk) as [k [Hkt Hup]].
  repeat (split; [assumption|]). exists kw, k. auto.
Qed.

Lemma keyword_match_sound_witness :
  In join_farmers (triggers (sample_world [join_new; join_farmers] []))
  /\ is_archived join_farmers = false /\ is_active join_farmers = true
  /\ org join_farmers = 1.
Proof.
  destruct (keyword_match_sound join_msg
              (sample_world [join_new; join_farmers] []) join_farmers
              eq_refl) as [H1 [H2 [H3 [H4 _]]]].
  repeat split; assumption.
Defined.

(** A missed-call trigger that carries the keyword is picked as well. *)
Example keyword_match_ignores_type :
  keyword_match join_msg
    (sample_world
       [sample_trigger 2 1 MISSED_CALL_TRIGGER (Some "JOIN"%string) false None]
       [])
  = Some (sample_trigger 2 1 MISSED_CALL_TRIGGER (Some "JOIN"%string) false
                         None).
Proof. reflexivity. Qed.



(** * Further properties of [catch_triggers] and [fire] *)

Lemma start_each_app pre post contact start_msg w :
  start_each (pre ++ post) contact start_msg w
  = match start_each pre contact start_msg w with
    | (Return _, w') => start_each post contact start_msg w'
    | (Raise e, w') => (Raise e, w')
    end.
Proof.
  revert w. induction pre as [|t pre IH]; intros w; simpl; [reflexivity|].
  destruct (start_flow_of t [] [contact] start_msg w) as [[s|e] w'];
    [apply IH | reflexivity].
Qed.

(** X10: [catch_triggers] given something that is no message, call or
    contact raises the entity error and touches nothing; given an entity
    whose organization has no active, non-archived trigger of the type it
    answers false and touches nothing; and a channel id of 0 restricts
    nothing, like no channel id. *)
Theorem catch_triggers_edges ty channel_id w :
  (forall o,
      catch_triggers (OtherEntity o) ty channel_id w
      = (Raise ValueError_entity, w))
  /\ (forall entity,
        entity_target entity <> None ->
        (forall t, In t (triggers w) ->
           live_of_type ty (entity_org entity) t = false) ->
        catch_triggers entity ty channel_id w = (Return false, w))
  /\ (forall entity,
        catch_triggers entity ty (Some 0) w = catch_triggers entity ty None w).
Proof.
  split; [reflexivity|]. split; [|reflexivity].
  intros entity Ht Hnone. unfold catch_triggers.
  destruct (entity_target entity) as [[contact start_msg]|]; [|congruence].
  assert (E : caught_triggers (entity_org entity) ty channel_id (triggers w)
              = []).
  { destruct (caught_triggers _ ty channel_id (triggers w)) as [|t l] eqn:E;
      [reflexivity|].
    assert (X : In t (caught_triggers (entity_org entity) ty channel_id
                                      (triggers w)))
      by (rewrite E; now left).
    apply caught_triggers_In in X. destruct X as [Hin [Hl _]].
    rewrite (Hnone t Hin) in Hl. discriminate. }
  rewrite E. reflexivity.
Qed.

Lemma catch_triggers_edges_witness :
  catch_triggers (ContactEntity farmer) CATCH_ALL_TRIGGER None
                 (sample_world sample_db [])
  = (Return false, sample_world sample_db []).
Proof.
  apply (proj1 (proj2 (catch_triggers_edges CATCH_ALL_TRIGGER None
                         (sample_world sample_db [])))).
  - discriminate.
  - intros t Ht. simpl in Ht.
    destruct Ht as [<-|[<-|[<-|[<-|[<-|[<-|[]]]]]]]; reflexivity.
Defined.

(** X11: when one of the caught triggers has no flow, [catch_triggers]
    raises the attribute error at that trigger: the flows of the triggers
    before it have been started and stay started, no later one is, and the
    trigger table is untouched. *)
Theorem catch_triggers_without_flow entity ty channel_id w contact start_msg
    pre t post :
  entity_target entity = Some (contact, start_msg) ->
  caught_triggers (entity_org entity) ty channel_id (triggers w)
  = pre ++ t :: post ->
  (forall x, In x pre ->
     exists f, flow x = Some f /\ get_flow f (flows w) <> None) ->
  flow t = None ->
  exists w',
    catch_triggers entity ty channel_id w = (Raise AttributeError, w')
    /\ started w'
       = started w ++ flat_map (start_record contact start_msg) pre
    /\ triggers w' = triggers w.
Proof.
  intros Ht Hc Hpre Hf.
  destruct (start_each_all pre contact start_msg w Hpre) as [w' [E [Hs Htr]]].
  exists w'. unfold catch_triggers. rewrite Ht, Hc, start_each_app, E.
  simpl. unfold start_flow_of. rewrite Hf. auto.
Qed.

Lemma catch_triggers_without_flow_witness :
  exists w',
    catch_triggers (ContactEntity farmer) INBOUND_CALL_TRIGGER None
      (sample_world [call_a; set_flow None call_b] [])
    = (Raise AttributeError, w')
    /\ started w' = [mkFlowStart 1 [] [9] None true]
    /\ triggers w' = [call_a; set_flow None call_b].
Proof.
  apply (catch_triggers_without_flow (ContactEntity farmer)
           INBOUND_CALL_TRIGGER None
           (sample_world [call_a; set_flow None call_b] []) 9 None
           [call_a] (set_flow None call_b) []).
  - reflexivity.
  - reflexivity.
  - intros x [<-|[]]. exists 1. split; [reflexivity | discriminate].
  - reflexivity.
Defined.

(** * Further properties of import *)

Lemma resolve_group_frame same o spec w :
  triggers (snd (resolve_group same o spec w)) = triggers w
  /\ trigger_groups (snd (resolve_group same o spec w)) = trigger_groups w
  /\ flows (snd (resolve_group same o spec w)) = flows w.
Proof.
  unfold resolve_group.
  destruct (match (if same then _ else None) with
            | Some g => Some g
            | None => _
            end) as [g|].
  - destruct (group_is_active g); simpl; auto.
  - unfold ContactGroup_create. simpl. auto.
Qed.

Lemma resolve_groups_frame same o specs w :
  triggers (snd (resolve_groups same o specs w)) = triggers w
  /\ trigger_groups (snd (resolve_groups same o specs w)) = trigger_groups w
  /\ flows (snd (resolve_groups same o specs w)) = flows w.
Proof.
  revert w. induction specs as [|spec rest IH]; intros w; simpl; [auto|].
  pose proof (resolve_group_frame same o spec w) as H1.
  destruct (resolve_group same o spec w) as [g w1]. simpl in H1.
  specialize (IH w1).
  destruct (resolve_groups same o rest w1) as [gs w2]. simpl in *.
  destruct H1 as [A [B C]], IH as [A' [B' C']].
  repeat split; congruence.
Qed.

Lemma add_groups_frame k gs w :
  triggers (fold_left (fun w' g => add_group k g w') gs w) = triggers w
  /\ flows (fold_left (fun w' g => add_group k g w') gs w) = flows w.
Proof.
  revert w. induction gs as [|g gs IH]; intros w; simpl; [auto|].
  destruct (IH (add_group k g w)) as [A B]. rewrite A, B.
  unfold add_group. destruct (existsb _ (trigger_groups w)); auto.
Qed.

Lemma first_by_In {A} (key : A -> Z) l a : first_by key l = Some a -> In a l.
Proof.
  unfold first_by. intros H. apply hd_error_In in H.
  now apply order_by_In in H.
Qed.


Lemma next_pk_fresh ks : ~ In (next_pk ks) ks.
Proof.
  assert (H : forall k, In k ks -> k <= fold_right Z.max 0 ks).
  { induction ks as [|a ks IH]; simpl; [contradiction|].
    intros k [->|Hk]; [lia|]. specialize (IH k Hk). lia. }
  intros Hin. specialize (H _ Hin). unfold next_pk in H. lia.
Qed.

Lemma save_existing_pks t tbl r :
  In r tbl -> pk r = pk t -> map pk (save t tbl) = map pk tbl.
Proof.
  intros Hin Hpk. unfold save.
  rewrite has_pk_In by (rewrite <- Hpk; now apply in_map).
  apply map_pk_replace.
Qed.

Lemma In_save t tbl : In t (save t tbl).
Proof.
  unfold save. destruct (existsb (fun r => pk r =? pk t) tbl) eqn:E.
  - apply existsb_exists in E. destruct E as [r [Hr Hpk]].
    apply in_map_iff. exists r. now rewrite Hpk.
  - apply in_or_app. right. now left.
Qed.

Lemma find_existing_In groups o spec w1 t :
  find_existing groups o spec w1 = Some t ->
  In t (triggers w1) /\ org t = o /\ trigger_type t = ts_trigger_type spec.
Proof.
  unfold find_existing. intros H.
  apply first_by_In, filter_In in H. destruct H as [Hin Hq].
  apply andb_prop in Hq. destruct Hq as [Hq _].
  apply andb_prop in Hq. destruct Hq as [Hq _].
  apply andb_prop in Hq. destruct Hq as [Hto Hty].
  apply Z.eqb_eq in Hto. apply trigger_type_eqb_eq in Hty. auto.
Qed.

(** What one entry does to the trigger table and to the flows. *)
Lemma import_trigger_effect same o spec w :
  flows (snd (import_trigger same o spec w)) = flows w
  /\ ((exists e,
         fst (import_trigger same o spec w) = Raise e
         /\ triggers (snd (import_trigger same o spec w)) = triggers w
         /\ trigger_groups (snd (import_trigger same o spec w))
            = trigger_groups w
         /\ ((e = DoesNotExist
              /\ forall f, In f (flows w) -> flow_org f = o ->
                           flow_pk f <> ts_flow_id spec)
             \/ (e = ValueError_assign
                 /\ ts_channel spec <> None
                 /\ find_existing (fst (resolve_groups same o (ts_groups spec) w))
                                  o spec
                                  (snd (resolve_groups same o (ts_groups spec) w))
                    = None
                 /\ exists fl, In fl (flows w) /\ flow_org fl = o
                               /\ flow_pk fl = ts_flow_id spec)))
      \/ (fst (import_trigger same o spec w) = Return tt
          /\ (find_existing (fst (resolve_groups same o (ts_groups spec) w))
                            o spec
                            (snd (resolve_groups same o (ts_groups spec) w))
              <> None
              \/ ts_channel spec = None)
          /\ exists fl t,
               In fl (flows w) /\ flow_org fl = o
               /\ flow_pk fl = ts_flow_id spec
               /\ In t (triggers (snd (import_trigger same o spec w)))
               /\ org t = o /\ trigger_type t = ts_trigger_type spec
               /\ is_archived t = false /\ flow t = Some (ts_flow_id spec)
               /\ (map pk (triggers (snd (import_trigger same o spec w)))
                   = map pk (triggers w)
                   \/ (map pk (triggers (snd (import_trigger same o spec w)))
                       = map pk (triggers w) ++ [pk t]
                       /\ pk t = next_pk (map pk (triggers w))
                       /\ keyword t = ts_keyword spec
                       /\ channel t = None
                       /\ trigger_count t = 0
                       /\ last_triggered t = None)))).
Proof.
  unfold import_trigger.
  pose proof (resolve_groups_frame same o (ts_groups spec) w) as Hfr.
  destruct (resolve_groups same o (ts_groups spec) w) as [groups w1].
  simpl in Hfr. destruct Hfr as [Ht [Hg Hf]]. simpl fst. simpl snd.
  destruct (find (fun f => (flow_org f =? o) && (flow_pk f =? ts_flow_id spec))
                 (flows w1)) as [fl|] eqn:Efl.
  - apply find_some in Efl. destruct Efl as [Hfl Hq].
    apply andb_prop in Hq. destruct Hq as [Ho Hp].
    apply Z.eqb_eq in Ho. apply Z.eqb_eq in Hp. rewrite Hf in Hfl.
    destruct (find_existing groups o spec w1) as [trigger|] eqn:Efirst.
    + simpl. split; [assumption|]. right. split; [reflexivity|].
      split; [left; discriminate|].
      apply find_existing_In in Efirst. destruct Efirst as [Hin [Hto Hty]].
      exists fl, (set_flow (Some (flow_pk fl)) (set_is_archived false trigger)).
      repeat (split; [first [assumption | apply In_save | reflexivity
                            | simpl; congruence]|]).
      left. rewrite <- Ht. now apply (save_existing_pks _ _ trigger).
    + destruct (ts_channel spec) as [c|] eqn:Ec.
      * simpl. split; [assumption|]. left. exists ValueError_assign.
        repeat (split; [first [assumption | reflexivity]|]).
        right. split; [reflexivity|]. split; [discriminate|].
        split; [reflexivity|]. exists fl. auto.
      * destruct (add_groups_frame
                    (next_pk (map pk (triggers w1))) groups
                    (set_triggers
                       (triggers w1 ++
                        [mkTrigger (next_pk (map pk (triggers w1))) o
                                   (ts_keyword spec) (Some (flow_pk fl)) None 0
                                   false None (ts_trigger_type spec)
                                   None true (clock w1)]) w1))
          as [A B].
        simpl in A, B. simpl. rewrite A, B.
        split; [assumption|]. right. split; [reflexivity|].
        split; [now right|].
        exists fl, (mkTrigger (next_pk (map pk (triggers w1))) o
                              (ts_keyword spec) (Some (flow_pk fl)) None 0
                              false None (ts_trigger_type spec)
                              None true (clock w1)).
        repeat (split; [first [assumption | reflexivity
                              | simpl; congruence
                              | apply in_or_app; right; now left]|]).
        right. rewrite map_app, Ht. simpl. auto 10.
  - simpl. split; [assumption|]. left. exists DoesNotExist.
    repeat (split; [first [assumption | reflexivity]|]).
    left. split; [reflexivity|].
    intros f Hin Ho Hp. rewrite <- Hf in Hin.
    pose proof (find_none _ _ Efl f Hin) as X. simpl in X.
    rewrite Ho, Hp, !Z.eqb_refl in X. discriminate.
Qed.

Lemma import_each_app same o pre post w :
  import_each same o (pre ++ post) w
  = match import_each same o pre w with
    | (Return _, w') => import_each same o post w'
    | (Raise e, w') => (Raise e, w')
    end.
Proof.
  revert w. induction pre as [|spec pre IH]; intros w; simpl; [reflexivity|].
  destruct (import_trigger same o spec w) as [[u|e] w'];
    [apply IH | reflexivity].
Qed.

Lemma import_each_flows same o specs w :
  flows (snd (import_each same o specs w)) = flows w.
Proof.
  revert w. induction specs as [|spec rest IH]; intros w; simpl;
    [reflexivity|].
  pose proof (import_trigger_effect same o spec w) as [Hf _].
  destruct (import_trigger same o spec w) as [[u|e] w']; simpl in *.
  - now rewrite IH.
  - assumption.
Qed.

(** X13: an entry whose flow is not a flow of the organization stops the
    import with [DoesNotExist]: the entries before it stay imported, the
    entry itself and those after it create and change no trigger and attach
    no group to one. *)
Theorem import_missing_flow earliest doc o site w pre spec rest w1 :
  earliest <= match ex_version doc with Some v => v | None => 0 end ->
  ex_triggers doc = Some (pre ++ spec :: rest) ->
  import_each (site_matches site (ex_site doc)) o pre w = (Return tt, w1) ->
  (forall f, In f (flows w) -> flow_org f = o ->
             flow_pk f <> ts_flow_id spec) ->
  fst (import_triggers earliest doc o site w) = Raise DoesNotExist
  /\ triggers (snd (import_triggers earliest doc o site w)) = triggers w1
  /\ trigger_groups (snd (import_triggers earliest doc o site w))
     = trigger_groups w1.
Proof.
  intros Hv Hdoc Hpre Hflow. unfold import_triggers.
  apply Z.ltb_ge in Hv. rewrite Hv, Hdoc, import_each_app, Hpre. simpl.
  pose proof (import_each_flows (site_matches site (ex_site doc)) o pre w)
    as Hf. rewrite Hpre in Hf. simpl in Hf.
  destruct (import_trigger_effect (site_matches site (ex_site doc)) o spec w1)
    as [_ [[e [Hr [Ht [Hg Hcase]]]] | [_ [_ [fl [t [Hfl [Ho [Hp _]]]]]]]]].
  - destruct Hcase as [[-> _] | [_ [_ [_ [fl [Hfl [Ho Hp]]]]]]].
    + destruct (import_trigger _ o spec w1) as [[u|e] w2]; simpl in *;
        [discriminate|]. injection Hr as ->. auto.
    + rewrite Hf in Hfl. exfalso. exact (Hflow fl Hfl Ho Hp).
  - rewrite Hf in Hfl. exfalso. exact (Hflow fl Hfl Ho Hp).
Qed.

Lemma import_missing_flow_witness :
  fst (import_triggers 3
         (mkExportedJson (Some 3) None
            (Some [mkTriggerSpec KEYWORD_TRIGGER (Some "join"%string) 1 [] None;
                   mkTriggerSpec KEYWORD_TRIGGER (Some "stop"%string) 8 [] None;
                   mkTriggerSpec KEYWORD_TRIGGER (Some "help"%string) 1 [] None]))
         1 None (sample_world [] []))
  = Raise DoesNotExist
  /\ map keyword
       (triggers
          (snd (import_triggers 3
                  (mkExportedJson (Some 3) None
                     (Some [mkTriggerSpec KEYWORD_TRIGGER (Some "join"%string)
                                          1 [] None;
                            mkTriggerSpec KEYWORD_TRIGGER (Some "stop"%string)
                                          8 [] None;
                            mkTriggerSpec KEYWORD_TRIGGER (Some "help"%string)
                                          1 [] None]))
                  1 None (sample_world [] []))))
     = [Some "join"%string].
Proof.
  destruct (import_missing_flow 3
              (mkExportedJson (Some 3) None
                 (Some [mkTriggerSpec KEYWORD_TRIGGER (Some "join"%string)
                                      1 [] None;
                        mkTriggerSpec KEYWORD_TRIGGER (Some "stop"%string)
                                      8 [] None;
                        mkTriggerSpec KEYWORD_TRIGGER (Some "help"%string)
                                      1 [] None]))
              1 None (sample_world [] [])
              [mkTriggerSpec KEYWORD_TRIGGER (Some "join"%string) 1 [] None]
              (mkTriggerSpec KEYWORD_TRIGGER (Some "stop"%string) 8 [] None)
              [mkTriggerSpec KEYWORD_TRIGGER (Some "help"%string) 1 [] None]
              (snd (import_each false 1
                      [mkTriggerSpec KEYWORD_TRIGGER (Some "join"%string) 1 []
                                     None]
                      (sample_world [] []))))
    as [H1 [H2 _]].
  - simpl. lia.
  - reflexivity.
  - reflexivity.
  - intros f [<-|[<-|[]]] _; simpl; discriminate.
  - split; [exact H1|]. rewrite H2. reflexivity.
Defined.

(** X14: one entry is imported exactly when its flow is a flow of the
    organization and, besides, a trigger matching the entry exists or the
    entry names no channel (a new trigger cannot be created with the
    exported channel number).  The table then holds a non-archived trigger
    of the entry's type and of the organization that starts the entry's
    flow; and either no key was added, or that trigger is new, with a key no
    row had, the entry's keyword, no channel, no fire counted and no fire
    time. *)
Theorem import_entry_result same o spec w :
  (fst (import_trigger same o spec w) = Return tt <->
   (exists fl, In fl (flows w) /\ flow_org fl = o
               /\ flow_pk fl = ts_flow_id spec)
   /\ (find_existing (fst (resolve_groups same o (ts_groups spec) w)) o spec
                      (snd (resolve_groups same o (ts_groups spec) w))
        <> None
        \/ ts_channel spec = None))
  /\ (fst (import_trigger same o spec w) = Return tt ->
      exists t,
        In t (triggers (snd (import_trigger same o spec w)))
        /\ org t = o /\ trigger_type t = ts_trigger_type spec
        /\ is_archived t = false /\ flow t = Some (ts_flow_id spec)
        /\ (map pk (triggers (snd (import_trigger same o spec w)))
            = map pk (triggers w)
            \/ (map pk (triggers (snd (import_trigger same o spec w)))
                = map pk (triggers w) ++ [pk t]
                /\ ~ In (pk t) (map pk (triggers w))
                /\ keyword t = ts_keyword spec /\ channel t = None
                /\ trigger_count t = 0 /\ last_triggered t = None)))
  /\ (fst (import_trigger same o spec w) <> Return tt ->
      triggers (snd (import_trigger same o spec w)) = triggers w
      /\ trigger_groups (snd (import_trigger same o spec w))
         = trigger_groups w
      /\ (fst (import_trigger same o spec w) = Raise DoesNotExist
          \/ fst (import_trigger same o spec w) = Raise ValueError_assign)).
Proof.
  destruct (import_trigger_effect same o spec w)
    as [_ [[e [Hr [Htr [Hgr Hcase]]]]
          | [Hr [Hfound [fl [t [Hfl [Ho [Hp Ht]]]]]]]]].
  - split; [|split].
    + split; [congruence|]. intros [[fl [Hfl [Ho Hp]]] Hfc]. exfalso.
      destruct Hcase as [[_ Hno] | [_ [Hc [Hnone _]]]].
      * exact (Hno fl Hfl Ho Hp).
      * destruct Hfc; contradiction.
    + congruence.
    + intros _. split; [assumption|]. split; [assumption|].
      destruct Hcase as [[-> _] | [-> _]]; auto.
  - split; [|split].
    + split; [|auto]. intros _. split; [eauto | assumption].
    + intros _. exists t.
      destruct Ht as [H1 [H2 [H3 [H4 [H5 H6]]]]].
      repeat (split; [assumption|]).
      destruct H6 as [H6 | [H6 [H7 [H8 [H9 [H10 H11]]]]]]; [now left | right].
      split; [assumption|]. split; [rewrite H7; apply next_pk_fresh|].
      auto.
    + congruence.
Qed.

Lemma import_entry_result_witness :
  exists t,
    In t (triggers
            (snd (import_trigger false 1
                    (mkTriggerSpec KEYWORD_TRIGGER (Some "join"%string) 1 []
                                   (Some 1))
                    (sample_world [join_old] []))))
    /\ org t = 1 /\ trigger_type t = KEYWORD_TRIGGER
    /\ is_archived t = false /\ flow t = Some 1.
Proof.
  destruct (proj1 (proj2 (import_entry_result false 1
                     (mkTriggerSpec KEYWORD_TRIGGER (Some "join"%string) 1 []
                                    (Some 1))
                     (sample_world [join_old] []))) eq_refl)
    as [t [H1 [H2 [H3 [H4 [H5 _]]]]]].
  exists t. repeat split; assumption.
Defined.

(** An entry with a channel and no trigger to update raises, creating
    nothing; the same entry without channel creates the trigger. *)
Example import_channel_entry :
  import_trigger false 1
    (mkTriggerSpec KEYWORD_TRIGGER (Some "stop"%string) 1 [] (Some 1))
    (sample_world [join_old] [])
  = (Raise ValueError_assign, sample_world [join_old] [])
  /\ map keyword
       (triggers
          (snd (import_trigger false 1
                  (mkTriggerSpec KEYWORD_TRIGGER (Some "stop"%string) 1 []
                                 None)
                  (sample_world [join_old] []))))
     = [Some "join"%string; Some "stop"%string].
Proof. split; reflexivity. Qed.

Lemma import_each_keys same o specs w :
  unique_pks (triggers w) ->
  unique_pks (triggers (snd (import_each same o specs w)))
  /\ exists new,
       map pk (triggers (snd (import_each same o specs w)))
       = map pk (triggers w) ++ new
       /\ (List.length new <= List.length specs)%nat.
Proof.
  revert w. induction specs as [|spec rest IH]; intros w Hu; simpl.
  - split; [assumption|]. exists []. now rewrite app_nil_r.
  - assert (Hstep : unique_pks (triggers (snd (import_trigger same o spec w)))
                    /\ exists new,
                         map pk (triggers (snd (import_trigger same o spec w)))
                         = map pk (triggers w) ++ new
                         /\ (List.length new <= 1)%nat).
    { destruct (import_trigger_effect same o spec w)
        as [_ [[e [_ [Ht _]]]
              | [_ [_ [fl [t [_ [_ [_ [_ [_ [_ [_ [_ Hk]]]]]]]]]]]]]].
      - rewrite Ht. split; [assumption|]. exists [].
        rewrite app_nil_r. auto.
      - destruct Hk as [Hk | [Hk [Hn _]]].
        + unfold unique_pks. rewrite Hk. split; [assumption|].
          exists []. rewrite app_nil_r. auto.
        + unfold unique_pks. rewrite Hk. split.
          * apply NoDup_rev in Hu. rewrite <- (rev_involutive (_ ++ _)).
            apply NoDup_rev. rewrite rev_app_distr. simpl.
            constructor; [|assumption].
            rewrite <- in_rev, Hn. apply next_pk_fresh.
          * exists [pk t]. auto. }
    destruct Hstep as [Hu1 [new1 [Hk1 Hl1]]].
    destruct (import_trigger same o spec w) as [[u|e] w1]; simpl in *.
    + destruct (IH w1 Hu1) as [Hu2 [new2 [Hk2 Hl2]]].
      split; [assumption|]. exists (new1 ++ new2).
      rewrite Hk2, Hk1, <- app_assoc. split; [reflexivity|].
      rewrite List.length_app. lia.
    + split; [assumption|]. exists new1. split; [assumption | lia].
Qed.

(** X15: [import_triggers] removes no trigger and re-keys none: the keys of
    the table after it are the keys before it followed by at most one new
    key per entry, and they are still pairwise distinct. *)
Theorem import_keeps_keys earliest doc o site w :
  unique_pks (triggers w) ->
  unique_pks (triggers (snd (import_triggers earliest doc o site w)))
  /\ exists new,
       map pk (triggers (snd (import_triggers earliest doc o site w)))
       = map pk (triggers w) ++ new
       /\ (List.length new
           <= List.length match ex_triggers doc with
                          | Some specs => specs
                          | None => []
                          end)%nat.
Proof.
  intros Hu. unfold import_triggers.
  destruct (_ <? earliest).
  - simpl. split; [assumption|]. exists []. rewrite app_nil_r.
    split; [reflexivity | simpl; lia].
  - destruct (ex_triggers doc) as [specs|].
    + now apply import_each_keys.
    + simpl. split; [assumption|]. exists []. rewrite app_nil_r. auto.
Qed.

Lemma import_keeps_keys_witness :
  unique_pks
    (triggers
       (snd (import_triggers 3
               (mkExportedJson (Some 3) None
                  (Some [mkTriggerSpec CATCH_ALL_TRIGGER None 1 [] None]))
               1 None (sample_world sample_db []))))
  /\ exists new,
       map pk
         (triggers
            (snd (import_triggers 3
                    (mkExportedJson (Some 3) None
                       (Some [mkTriggerSpec CATCH_ALL_TRIGGER None 1 [] None]))
                    1 None (sample_world sample_db []))))
       = map pk sample_db ++ new
       /\ (List.length new <= 1)%nat.
Proof.
  exact (import_keeps_keys 3
           (mkExportedJson (Some 3) None
              (Some [mkTriggerSpec CATCH_ALL_TRIGGER None 1 [] None]))
           1 None (sample_world sample_db []) sample_db_unique).
Defined.

(** * Export, then import *)







(** Without matching sites the groups are looked up by name: the same
    export, its group renamed on the importing side, creates a group and a
    second trigger. *)
Example import_by_name_duplicates :
  map pk
    (triggers
       (snd (import_trigger false 1
               (spec_of_json
                  (mkTriggerJson KEYWORD_TRIGGER (Some "join"%string)
                                 (mkFlowRef 1 "Registration")
                                 [mkGroupSpec 100 "Growers"] None))
               (sample_world [join_new; join_farmers] []))))
  = [2; 10; 11].
Proof. reflexivity. Qed.

(** * The keyword is the first word *)

Lemma string_app_nil (s : string) : (s ++ "")%string = s.
Proof. induction s as [|c s IH]; simpl; [reflexivity | now rewrite IH]. Qed.

Lemma string_app_assoc (a b c : string) :
  ((a ++ b) ++ c)%string = (a ++ (b ++ c))%string.
Proof. induction a as [|x a IH]; simpl; [reflexivity | now rewrite IH]. Qed.

Lemma rev_string_app a b acc :
  rev_string (a ++ b) acc = rev_string b (rev_string a acc).
Proof.
  revert acc. induction a as [|c a IH]; intros acc; simpl; [reflexivity|].
  apply IH.
Qed.

Lemma rev_string_rev s a b :
  rev_string (rev_string s a) b = rev_string a (s ++ b).
Proof.
  revert a. induction s as [|c s IH]; intros a; simpl; [reflexivity|].
  now rewrite IH.
Qed.

Lemma rev_string_acc s acc :
  rev_string s acc = (rev_string s "" ++ acc)%string.
Proof.
  revert acc. induction s as [|c s IH]; intros acc; simpl; [reflexivity|].
  rewrite (IH (String c acc)), (IH (String c "")), string_app_assoc.
  reflexivity.
Qed.

Lemma all_chars_rev p s acc :
  all_chars p (rev_string s acc) = all_chars p s && all_chars p acc.
Proof.
  revert acc. induction s as [|c s IH]; intros acc; simpl; [reflexivity|].
  rewrite IH. simpl. destruct (p c), (all_chars p s), (all_chars p acc);
    reflexivity.
Qed.

Lemma lstrip_split z :
  exists pre, z = (pre ++ lstrip z)%string /\ all_chars is_space pre = true.
Proof.
  induction z as [|c z [pre [E Hp]]]; simpl.
  - exists EmptyString. auto.
  - destruct (is_space c) eqn:Hc.
    + exists (String c pre). simpl. rewrite Hc, Hp. now rewrite <- E.
    + exists EmptyString. auto.
Qed.

(** [strip] cuts white space off both ends. *)
Lemma strip_split s :
  exists pre post,
    s = (pre ++ strip s ++ post)%string
    /\ all_chars is_space pre = true /\ all_chars is_space post = true.
Proof.
  destruct (lstrip_split s) as [pre [E1 Hpre]].
  destruct (lstrip_split (rev_string (lstrip s) "")) as [q [E2 Hq]].
  exists pre, (rev_string q ""). split; [|split].
  - rewrite E1 at 1. f_equal. unfold strip.
    set (z := lstrip (rev_string (lstrip s) "")) in *.
    assert (X : lstrip s = rev_string (rev_string (lstrip s) "") "")
      by (now rewrite rev_string_rev, string_app_nil).
    rewrite X at 1. rewrite E2, rev_string_app.
    now rewrite (rev_string_acc z (rev_string q "")).
  - assumption.
  - rewrite all_chars_rev, Hq. reflexivity.
Qed.

Lemma spaces_no_word p :
  all_chars is_space p = true -> skip_nonword p = EmptyString.
Proof.
  induction p as [|c p IH]; simpl; [reflexivity|].
  intros H. apply andb_prop in H. destruct H as [Hc Hp].
  rewrite (space_is_no_word c Hc). now apply IH.
Qed.

Lemma take_word_spaces u p :
  all_chars is_space p = true -> take_word (u ++ p) = take_word u.
Proof.
  intros Hp. induction u as [|c u IH]; simpl.
  - destruct p as [|c p]; [reflexivity|]. simpl in *.
    apply andb_prop in Hp. destruct Hp as [Hc _].
    now rewrite (space_is_no_word c Hc).
  - destruct (is_word c); [now rewrite IH | reflexivity].
Qed.

Lemma first_word_spaces_after a p :
  all_chars is_space p = true -> first_word (a ++ p) = first_word a.
Proof.
  intros Hp. unfold first_word. induction a as [|c a IH]; simpl.
  - now rewrite (spaces_no_word p Hp).
  - destruct (is_word c) eqn:Hc; [|assumption].
    change (take_word (String c a ++ p) = take_word (String c a)).
    now apply take_word_spaces.
Qed.

Lemma first_word_spaces_before p a :
  all_chars is_space p = true -> first_word (p ++ a) = first_word a.
Proof.
  unfold first_word. induction p as [|c p IH]; simpl; [reflexivity|].
  intros H. apply andb_prop in H. destruct H as [Hc Hp].
  rewrite (space_is_no_word c Hc). now apply IH.
Qed.

Lemma first_word_strip s : first_word (strip s) = first_word s.
Proof.
  destruct (strip_split s) as [pre [post [E [Hpre Hpost]]]].
  rewrite E at 2.
  now rewrite first_word_spaces_before, first_word_spaces_after.
Qed.

Lemma re_split_word_open x cur :
  nonempty cur = true ->
  hd_error (drop_empty (re_split_from x cur false))
  = Some (cur ++ take_word x)%string.
Proof.
  revert cur. induction x as [|c x IH]; intros cur Hc; simpl.
  - now rewrite Hc, string_app_nil.
  - destruct (is_word c).
    + rewrite IH by (destruct cur; reflexivity).
      now rewrite string_app_assoc.
    + simpl. now rewrite Hc, string_app_nil.
Qed.

Lemma re_split_first_word x in_sep :
  hd_error (drop_empty (re_split_from x EmptyString in_sep))
  = if nonempty (first_word x) then Some (first_word x) else None.
Proof.
  unfold first_word. revert in_sep.
  induction x as [|c x IH]; intros in_sep; simpl; [reflexivity|].
  destruct (is_word c) eqn:Hc.
  - simpl. rewrite Hc. simpl. now rewrite re_split_word_open.
  - destruct in_sep; simpl; apply IH.
Qed.

Lemma first_keyword_hd text :
  first_keyword text
  = match hd_error (drop_empty (re_split (strip text))) with
    | Some word => if nonempty word then Some (lower word) else None
    | None => None
    end.
Proof.
  unfold first_keyword.
  destruct (drop_empty (re_split (strip text))) as [|word rest];
    [reflexivity|].
  simpl. now rewrite nonempty_lower.
Qed.

Lemma first_word_of_split text :
  hd_error (drop_empty (re_split (strip text)))
  = if nonempty (first_word text) then Some (first_word text) else None.
Proof.
  unfold re_split. rewrite re_split_first_word. now rewrite first_word_strip.
Qed.

(** X17: the keyword of an ASCII text is its first maximal run of letters,
    digits and underscores, in lower case; there is none when the text has
    no such character.  White space and punctuation before the first word
    and everything after it do not matter. *)
Theorem first_keyword_is_first_word text :
  ascii_text text ->
  first_keyword text
  = if nonempty (first_word text) then Some (lower (first_word text))
    else None.
Proof.
  intros _. rewrite first_keyword_hd, first_word_of_split.
  destruct (nonempty (first_word text)) eqn:Hn; [|reflexivity].
  now rewrite Hn.
Qed.

Lemma first_keyword_is_first_word_witness :
  first_word "  Join, now!" = "Join"%string
  /\ first_keyword "  Join, now!" = Some "join"%string.
Proof.
  split; [reflexivity|].
  exact (first_keyword_is_first_word "  Join, now!" eq_refl).
Defined.

Lemma skip_nonword_lower s : skip_nonword (lower s) = lower (skip_nonword s).
Proof.
  induction s as [|c s IH]; simpl; [reflexivity|].
  rewrite lower_char_word. destruct (is_word c); [reflexivity | assumption].
Qed.

Lemma take_word_lower s : take_word (lower s) = lower (take_word s).
Proof.
  induction s as [|c s IH]; simpl; [reflexivity|].
  rewrite lower_char_word. destruct (is_word c); simpl; [|reflexivity].
  now rewrite IH.
Qed.

Lemma first_keyword_lower text : first_keyword (lower text) = first_keyword text.
Proof.
  rewrite !first_keyword_hd, !first_word_of_split. unfold first_word.
  rewrite skip_nonword_lower, take_word_lower, nonempty_lower.
  destruct (nonempty (take_word (skip_nonword text))) eqn:Hn; [|reflexivity].
  now rewrite nonempty_lower, Hn, lower_twice.
Qed.

(** X18: two messages with ASCII texts that differ in letter case only are
    dispatched alike: same answer, same trigger stamped, same flow started. *)
Theorem dispatch_ignores_case k o contact text1 text2 created w :
  ascii_text text1 -> ascii_text text2 ->
  lower text1 = lower text2 ->
  find_and_handle (mkMsg k o contact text1 created) w
  = find_and_handle (mkMsg k o contact text2 created) w.
Proof.
  intros _ _ H. unfold find_and_handle. simpl.
  now rewrite <- (first_keyword_lower text1), H, first_keyword_lower.
Qed.

Lemma dispatch_ignores_case_witness :
  find_and_handle (mkMsg 500 1 farmer "JOIN now" 50)
                  (sample_world [join_new] [])
  = find_and_handle (mkMsg 500 1 farmer "join NOW" 50)
                    (sample_world [join_new] []).
Proof.
  apply (dispatch_ignores_case 500 1 farmer "JOIN now" "join NOW" 50
           (sample_world [join_new] [])); reflexivity.
Defined.

(** * When a run suppresses triggers *)

(** X19: [find_and_handle] is suppressed by a run only if the contact has an
    active run in an active, non-archived flow that ignores triggers, that
    run is not completed, and no other such active run of the contact is
    newer (or as old with a larger key): a completed run, a run of an
    archived flow or an older run never suppresses a dispatch. *)
Theorem suppression_needs_latest_run w contact :
  ignoring_triggers w contact = true ->
  exists r fl,
    In r (runs w) /\ run_is_active r = true /\ run_contact r = contact
    /\ flow_usable w (Some (run_flow r)) = true
    /\ get_flow (run_flow r) (flows w) = Some fl
    /\ ignore_triggers fl = true /\ run_completed r = false
    /\ forall r',
         In r' (runs w) -> run_is_active r' = true ->
         run_contact r' = contact ->
         flow_usable w (Some (run_flow r')) = true ->
         run_created_on r' < run_created_on r
         \/ (run_created_on r' = run_created_on r /\ run_pk r' <= run_pk r).
Proof.
  unfold ignoring_triggers, active_run.
  set (q := fun r0 => run_is_active r0 && (run_contact r0 =? contact)
                      && flow_usable w (Some (run_flow r0))).
  destruct (order_by run_before (filter q (runs w))) as [|r rest] eqn:E;
    simpl; [discriminate|].
  destruct (get_flow (run_flow r) (flows w)) as [fl|] eqn:Hfl;
    [|discriminate].
  intros H. apply andb_prop in H. destruct H as [Hi Hc].
  apply negb_true_iff in Hc.
  pose proof (order_by_head_In _ _ _ _ E) as Hr.
  apply filter_In in Hr. destruct Hr as [Hin Hq]. unfold q in Hq.
  apply andb_prop in Hq. destruct Hq as [Hq Hf].
  apply andb_prop in Hq. destruct Hq as [Ha Hct]. apply Z.eqb_eq in Hct.
  exists r, fl. repeat (split; [assumption|]).
  intros r' Hin' Ha' Hc' Hf'.
  assert (Hq' : In r' (filter q (runs w))).
  { apply filter_In. split; [assumption|]. unfold q.
    rewrite Ha', Hc', Z.eqb_refl. exact Hf'. }
  pose proof (order_by_head_least run_before run_before_total
                run_before_trans _ _ _ E r' Hq') as Hle.
  unfold run_before in Hle.
  rewrite orb_true_iff, andb_true_iff, Z.ltb_lt, Z.eqb_eq, Z.leb_le in Hle.
  lia.
Qed.

Lemma suppression_needs_latest_run_witness :
  exists r fl,
    In r [old_run] /\ run_is_active r = true /\ run_contact r = 9
    /\ get_flow (run_flow r) sample_flows = Some fl
    /\ ignore_triggers fl = true /\ run_completed r = false.
Proof.
  destruct (suppression_needs_latest_run
              (sample_world [join_new] [old_run]) 9 eq_refl)
    as [r [fl [H1 [H2 [H3 [_ [H5 [H6 [H7 _]]]]]]]]].
  exists r, fl. repeat split; assumption.
Defined.

(** * The exclusive blocks archive the rest of the organization *)

Lemma kept_or_archived_other_block b ty ids dbx :
  unique_pks dbx -> trigger_type b <> ty ->
  kept_or_archived b dbx -> kept_or_archived b (restore_exclusive ty ids dbx).
Proof.
  intros Hu Hty H.
  assert (Hrow : exists r, In r dbx /\ pk r = pk b
                           /\ trigger_type r = trigger_type b).
  { destruct H as [H|H]; apply get_trigger_In in H; destruct H as [Hin Hp].
    - exists b. auto.
    - exists (set_is_archived true b). auto. }
  destruct Hrow as [r [Hr [Hp Ht]]].
  unfold restore_exclusive.
  destruct (order_by _ _) as [|first rest] eqn:E; [assumption|].
  apply order_by_head_In, selected_of_type_In in E.
  destruct E as [Hf [_ Htf]].
  apply kept_or_archived_save.
  - simpl. intros Epk.
    rewrite (unique_row dbx first r Hu Hf Hr) in Htf by congruence.
    congruence.
  - now apply kept_or_archived_update.
Qed.

(** X20: when a missed-call (catch-all) trigger is restored, every other
    active trigger of that type of the winner's organization, given to the
    call or not, ends archived. *)
Theorem restore_archives_rivals ty ids db first rest b :
  unique_pks db ->
  ty = MISSED_CALL_TRIGGER \/ ty = CATCH_ALL_TRIGGER ->
  order_by restore_before (selected_of_type ty ids db) = first :: rest ->
  In b db -> trigger_type b = ty -> org b = org first ->
  is_active b = true -> pk b <> pk first ->
  get_trigger (pk b) (snd (apply_action_restore ids db))
  = Some (set_is_archived true b).
Proof.
  intros Hu Hty Hs Hb Htb Hob Hact Hne.
  destruct (restore_loop_of_restore ids db Hu) as [Hu1 Hm1].
  pose proof (restore_exclusive_unique MISSED_CALL_TRIGGER ids _ Hu1) as Hu2.
  pose proof (restore_exclusive_modulo MISSED_CALL_TRIGGER ids db _ Hu Hm1)
    as Hm2.
  assert (Hloop : kept_or_archived b
                    (fold_left restore_one (remaining_triggers ids db) db)).
  { apply kept_or_archived_loop; [|left; now apply In_get_trigger].
    intros t Ht E. apply remaining_triggers_inv in Ht.
    destruct Ht as [Hin [_ [Hm Hc]]].
    rewrite (unique_row db t b Hu Hin Hb E) in Hm, Hc.
    destruct Hty; congruence. }
  assert (Hown : forall dbx,
            map (set_is_archived false) dbx = map (set_is_archived false) db ->
            kept_or_archived b dbx ->
            get_trigger (pk b) (restore_exclusive ty ids dbx)
            = Some (set_is_archived true b)).
  { intros dbx Hm Hk.
    destruct (selected_first_modulo ty ids db dbx first rest Hm Hs)
      as [first1 [rest1 [E1 Ef]]].
    assert (Eo : org first1 = org first)
      by (change (org (set_is_archived false first1)
                  = org (set_is_archived false first)); now rewrite Ef).
    unfold restore_exclusive. rewrite E1, Ef.
    rewrite get_trigger_save_other by (simpl; congruence).
    rewrite get_trigger_update.
    destruct Hk as [-> | ->]; simpl;
      rewrite Eo, Hob, Z.eqb_refl, Htb, trigger_type_eqb_refl, Hact;
      reflexivity. }
  assert (Hkeep : forall ty' dbx,
            unique_pks dbx -> ty <> ty' ->
            get_trigger (pk b) dbx = Some (set_is_archived true b) ->
            get_trigger (pk b) (restore_exclusive ty' ids dbx)
            = Some (set_is_archived true b)).
  { intros ty' dbx Hux Hd Hg.
    apply (restore_exclusive_keeps_row ty' ids dbx (set_is_archived true b));
      [assumption | simpl; congruence | exact Hg]. }
  unfold apply_action_restore. simpl.
  destruct Hty as [Hty | Hty]; subst ty.
  - apply Hkeep; [assumption | discriminate|]. now apply Hown.
  - apply Hown; [assumption|].
    apply kept_or_archived_other_block; [assumption | | assumption].
    rewrite Htb. discriminate.
Qed.

Lemma restore_archives_rivals_witness :
  get_trigger 6 (snd (apply_action_restore [5] sample_db))
  = Some (set_is_archived true missed_d).
Proof.
  apply (restore_archives_rivals MISSED_CALL_TRIGGER [5] sample_db
           missed_c [] missed_d sample_db_unique).
  - now left.
  - reflexivity.
  - simpl. auto 10.
  - reflexivity.
  - reflexivity.
  - reflexivity.
  - discriminate.
Defined.

(** * Groups of an import *)

Lemma activate_In g tbl :
  In g tbl ->
  In (mkContactGroup (group_pk g) (group_org g) (group_name g) true)
     (map (fun g' => if group_pk g' =? group_pk g
                     then mkContactGroup (group_pk g') (group_org g')
                                         (group_name g') true
                     else g') tbl).
Proof.
  intros H. apply in_map_iff. exists g. split; [|assumption].
  now rewrite Z.eqb_refl.
Qed.

(** The group the three lookups of [resolve_group] settle on, once chosen. *)
Lemma resolve_group_chosen (g : ContactGroup) (w1 : World) o name id same :
  In g (contactgroups w1) -> group_org g = o ->
  group_name g = name \/ (same = true /\ group_pk g = id) ->
  let r := if group_is_active g then (group_pk g, w1)
           else (group_pk g,
                 set_contactgroups
                   (map (fun g' => if group_pk g' =? group_pk g
                                   then mkContactGroup (group_pk g')
                                          (group_org g') (group_name g') true
                                   else g')
                        (contactgroups w1)) w1) in
  exists g',
    In g' (contactgroups (snd r)) /\ group_pk g' = fst r
    /\ group_org g' = o /\ group_is_active g' = true
    /\ (group_name g' = name \/ (same = true /\ group_pk g' = id)).
Proof.
  intros Hin Ho Hn. simpl. destruct (group_is_active g) eqn:Ha; simpl.
  - exists g. auto.
  - exists (mkContactGroup (group_pk g) (group_org g) (group_name g) true).
    split; [now apply activate_In|]. simpl. auto.
Qed.

(** X21: every group an import entry names is resolved to a group of the
    importing organization that is active afterwards -- found under the
    exported id when the sites match, else found or created under the
    exported name; a group found inactive is made active. *)
Theorem resolve_group_active same o spec w :
  exists g,
    In g (contactgroups (snd (resolve_group same o spec w)))
    /\ group_pk g = fst (resolve_group same o spec w)
    /\ group_org g = o /\ group_is_active g = true
    /\ (group_name g = gs_name spec
        \/ (same = true /\ group_pk g = gs_id spec)).
Proof.
  unfold resolve_group.
  destruct (if same
            then first_by group_pk
                   (filter (fun g => (group_org g =? o)
                                     && (group_pk g =? gs_id spec))
                           (contactgroups w))
            else None) as [g|] eqn:Eid.
  - destruct same; [|discriminate].
    apply first_by_In, filter_In in Eid. destruct Eid as [Hin Hq].
    apply andb_prop in Hq. destruct Hq as [Ho Hp].
    apply Z.eqb_eq in Ho. apply Z.eqb_eq in Hp.
    apply (resolve_group_chosen g w o (gs_name spec) (gs_id spec) true); auto.
  - destruct (first_by group_pk
                (filter (fun g => (group_org g =? o)
                                  && String.eqb (group_name g) (gs_name spec))
                        (contactgroups w))) as [g|] eqn:E.
    + apply first_by_In, filter_In in E. destruct E as [Hin Hq].
      apply andb_prop in Hq. destruct Hq as [Ho Hn].
      apply Z.eqb_eq in Ho. apply String.eqb_eq in Hn.
      apply (resolve_group_chosen g w o (gs_name spec) (gs_id spec) same);
        auto.
    + unfold ContactGroup_create.
      apply (resolve_group_chosen
               (mkContactGroup (next_pk (map group_pk (contactgroups w))) o
                               (gs_name spec) true)
               (set_contactgroups
                  (contactgroups w ++
                   [mkContactGroup (next_pk (map group_pk (contactgroups w)))
                                   o (gs_name spec) true]) w)
               o (gs_name spec) (gs_id spec) same); auto.
      simpl. apply in_or_app. right. now left.
Qed.

(** An inactive group found by name is made active again. *)
Example resolve_group_reactivates :
  contactgroups
    (snd (resolve_group false 1 (mkGroupSpec 7 "Farmers")
            (set_contactgroups [mkContactGroup 100 1 "Farmers" false]
                               (sample_world [] []))))
  = [mkContactGroup 100 1 "Farmers" true].
Proof. reflexivity. Qed.
